(** * Scroll coordination core: proof-message protocol and batch proposer

    A shallow embedding of

    - [common/types/message/message.go] (package [message]): hashing, signing
      and verification of proof messages, and [BatchProof.SanityCheck];
    - the batch proposer of package [l2]: [tryProposeBatch] and
      [createBatchForBlocks].

    Go's [uint64] is a 64-bit machine word ([Naive.word64]), so every
    addition wraps around exactly as in the source.  A Go function that can
    panic returns an [exec]; a function that mutates its receiver returns the
    new receiver next to its results. *)

From Stdlib Require Import ZArith Lia String Ascii List Bool.
From Stdlib.Strings Require Import Byte.
From Stdlib Require Import DecimalString.
From Stdlib Require DecimalN DecimalPos.
From coqutil Require Import Word.Interface Word.Properties Word.Naive.
From stdpp Require Import base list gmap strings vector finite.

Local Open Scope Z_scope.

(** ** Go runtime conventions shared by both packages *)

(** Go's [error] values are compared here by their message. *)
Definition error : Type := string.

(** What a call does: it returns, or it panics with a value. *)
Inductive exec (A : Type) : Type :=
| Returns (a : A)
| Panics (v : string).
Arguments Returns {A} a.
Arguments Panics {A} v.

Abbreviation uint64 := Naive.word64.

Definition u64 (z : Z) : uint64 := word.of_Z z.
Definition to_Z (w : uint64) : Z := word.unsigned w.

(** [fmt]'s [%d] / [%v] on a non-negative integer. *)
Definition fmt_d (n : Z) : string := NilZero.string_of_uint (N.to_uint (Z.to_N n)).

(** ** Package l2: the batch proposer *)
Module L2.

(** batch-related config *)
Definition batchTimeSec : uint64 := u64 (5 * 60).
Definition batchGasThreshold : uint64 := u64 3000000.
Definition batchBlocksLimit : uint64 := u64 100.

(** Modelled from the spec: the declaration of [orm.BlockInfo] is outside the
    sources.  The record has the fields [tryProposeBatch] reads; their types
    are forced by the Go expressions they occur in ([GasUsed] is added to a
    [uint64], [Number] is appended to a [[]uint64], [ParentHash] is passed as
    a [string]). *)
Record BlockInfo : Type := {
  Number : uint64;
  Hash : string;
  ParentHash : string;
  TxNum : uint64;
  GasUsed : uint64;
  BlockTimestamp : uint64;
}.

(** The local variables of the accumulation loop. *)
Record accum : Type := {
  idsToBatch : list uint64;
  blocksToBatch : list BlockInfo;
  txNum : uint64;
  gasUsed : uint64;
}.

Definition accum_init : accum :=
  {| idsToBatch := []; blocksToBatch := []; txNum := u64 0; gasUsed := u64 0 |}.

(** [for _, block := range blocks { if gasUsed+block.GasUsed >
    batchGasThreshold { break } ... }] *)
Fixpoint accumulate (blocks : list BlockInfo) (a : accum) : accum :=
  match blocks with
  | [] => a
  | block :: rest =>
      if word.ltu batchGasThreshold (word.add (gasUsed a) (GasUsed block))
      then a
      else accumulate rest
             {| idsToBatch := idsToBatch a ++ [Number block];
                blocksToBatch := blocksToBatch a ++ [block];
                txNum := word.add (txNum a) (TxNum block);
                gasUsed := word.add (gasUsed a) (GasUsed block) |}
  end.

(** *** The store behind [w.orm] *)

(** Modelled from the spec: the persistence engine is outside the sources.
    It is "an ordered relational store reached through a transactional
    handle": a batch row is what [CreateBatch] is given plus the generated
    id, and a block row carries the id of the batch it is assigned to. *)
Record Batch : Type := {
  batch_id : string;
  start_block : BlockInfo;
  end_block : BlockInfo;
  parent_hash : string;
  total_tx_num : uint64;
  total_gas_used : uint64;
}.

Record DB : Type := {
  batches : list Batch;
  block_batch : gmap Z string;   (* block number -> batch id *)
}.

Inductive write : Type :=
| InsertBatch (b : Batch)
| AssignBatch (blockIDs : list uint64) (batchID : string).

Definition assign_all (blockIDs : list uint64) (batchID : string)
    (m : gmap Z string) : gmap Z string :=
  foldr (fun n acc => <[to_Z n := batchID]> acc) m blockIDs.

Definition apply_write (d : DB) (w : write) : DB :=
  match w with
  | InsertBatch b => {| batches := batches d ++ [b]; block_batch := block_batch d |}
  | AssignBatch ids bid =>
      {| batches := batches d; block_batch := assign_all ids bid (block_batch d) |}
  end.

(** The calls the proposer makes on the store, in order. *)
Inductive call : Type :=
| CBeginx | CNewBatchInDBTx | CSetBatchIDForBlocksInDBTx | CCommit | CRollback
| CLogError (msg : string).

(** Modelled from the spec: a transaction's writes reach the committed
    state only by a successful [Commit]; [Rollback] discards them. *)
Record Store : Type := {
  committed : DB;
  pending : option (list write);   (* the open transaction, if any *)
  calls : list call;
}.

(** What the outside world answers during one invocation: the fetched
    blocks, the clock, and which store operation fails, if any. *)
Record Env : Type := {
  GetUnbatchedBlocks_result : error + list BlockInfo;
  now : uint64;                               (* uint64(time.Now().Unix()) *)
  Beginx_err : option error;
  NewBatchInDBTx_result : error + string;     (* the generated batch id *)
  SetBatchIDForBlocksInDBTx_err : option error;
  Commit_err : option error;
  Rollback_err : option error;
}.

Definition logged (c : call) (s : Store) : Store :=
  {| committed := committed s; pending := pending s; calls := calls s ++ [c] |}.

Definition Beginx (env : Env) (s : Store) : Store * option error :=
  let s := logged CBeginx s in
  match Beginx_err env with
  | Some e => (s, Some e)
  | None => ({| committed := committed s; pending := Some []; calls := calls s |}, None)
  end.

Definition tx_write (w : write) (s : Store) : Store :=
  {| committed := committed s;
     pending := (fun ws => ws ++ [w]) <$> pending s;
     calls := calls s |}.

Definition NewBatchInDBTx (env : Env) (startBlock endBlock : BlockInfo)
    (parentHash : string) (txNum gasUsed : uint64) (s : Store)
    : Store * (error + string) :=
  let s := logged CNewBatchInDBTx s in
  match NewBatchInDBTx_result env with
  | inl e => (s, inl e)
  | inr id =>
      (tx_write (InsertBatch {| batch_id := id; start_block := startBlock;
                                end_block := endBlock; parent_hash := parentHash;
                                total_tx_num := txNum; total_gas_used := gasUsed |}) s,
       inr id)
  end.

Definition SetBatchIDForBlocksInDBTx (env : Env) (blockIDs : list uint64)
    (batchID : string) (s : Store) : Store * option error :=
  let s := logged CSetBatchIDForBlocksInDBTx s in
  match SetBatchIDForBlocksInDBTx_err env with
  | Some e => (s, Some e)
  | None => (tx_write (AssignBatch blockIDs batchID) s, None)
  end.

Definition Commit (env : Env) (s : Store) : Store * option error :=
  let s := logged CCommit s in
  match Commit_err env with
  | Some e => ({| committed := committed s; pending := None; calls := calls s |}, Some e)
  | None =>
      ({| committed := foldl apply_write (committed s) (default [] (pending s));
          pending := None; calls := calls s |}, None)
  end.

Definition Rollback (env : Env) (s : Store) : Store * option error :=
  let s := logged CRollback s in
  match Rollback_err env with
  | Some e => (s, Some e)
  | None => ({| committed := committed s; pending := None; calls := calls s |}, None)
  end.

(** [defer func() { if dbTxErr != nil { if err := dbTx.Rollback(); err != nil
    { log.Error("dbTx.Rollback()", "err", err) } } }()] *)
Definition deferred_rollback (env : Env) (dbTxErr : option error) (s : Store) : Store :=
  match dbTxErr with
  | None => s
  | Some _ =>
      match Rollback env s with
      | (s, Some err) => logged (CLogError "dbTx.Rollback()"%string) s
      | (s, None) => s
      end
  end.

(** [func (w *WatcherClient) createBatchForBlocks(blockIDs []uint64, blocks
    []*orm.BlockInfo, parentHash string, txNum uint64, gasUsed uint64) error] *)
Definition createBatchForBlocks (env : Env) (blockIDs : list uint64)
    (blocks : list BlockInfo) (parentHash : string) (txNum gasUsed : uint64)
    (s : Store) : Store * exec (option error) :=
  match Beginx env s with
  | (s, Some err) => (s, Returns (Some err))
  | (s, None) =>
      match blocks !! 0%nat, last blocks with
      | Some startBlock, Some endBlock =>
          match NewBatchInDBTx env startBlock endBlock parentHash txNum gasUsed s with
          | (s, inl dbTxErr) => (deferred_rollback env (Some dbTxErr) s, Returns (Some dbTxErr))
          | (s, inr batchID) =>
              match SetBatchIDForBlocksInDBTx env blockIDs batchID s with
              | (s, Some dbTxErr) =>
                  (deferred_rollback env (Some dbTxErr) s, Returns (Some dbTxErr))
              | (s, None) =>
                  let '(s, dbTxErr) := Commit env s in
                  (deferred_rollback env dbTxErr s, Returns dbTxErr)
              end
          end
      | _, _ =>
          (* blocks[0] on an empty slice; dbTxErr is still nil in the defer *)
          (deferred_rollback env None s,
           Panics "runtime error: index out of range [0] with length 0"%string)
      end
  end.

(** [func (w *WatcherClient) tryProposeBatch() error].  The source holds
    [w.bpMutex] for the whole call, so invocations do not interleave: one
    invocation is a function of the store and of what the outside world
    answers. *)
Definition tryProposeBatch (env : Env) (s : Store) : Store * exec (option error) :=
  match GetUnbatchedBlocks_result env with
  | inl err => (s, Returns (Some err))
  | inr blocks =>
      match blocks with
      | [] => (s, Returns None)
      | block0 :: _ =>
          let a := accumulate blocks accum_init in
          if (length (blocksToBatch a) =? length blocks)%nat
             && word.ltu (gasUsed a) batchGasThreshold
             && word.ltu (now env) (word.add (BlockTimestamp block0) batchTimeSec)
          then (s, Returns None)
          else
            match blocksToBatch a with
            | [] =>
                (s, Panics (String.append "gas overflow even for only 1 block. gas: "
                                           (fmt_d (to_Z (GasUsed block0)))))
            | first :: _ =>
                createBatchForBlocks env (idsToBatch a) (blocksToBatch a)
                  (ParentHash first) (txNum a) (gasUsed a) s
            end
      end
  end.

(** *** Vocabulary of the batch-formation claims *)

(** Cumulative gas used by a list of blocks, as a mathematical integer. *)
Definition gas_sum (l : list BlockInfo) : Z :=
  foldr (fun b acc => to_Z (GasUsed b) + acc) 0 l.

(** The blocks the accumulation loop selects out of the fetched ones. *)
Definition selected (blocks : list BlockInfo) : list BlockInfo :=
  blocksToBatch (accumulate blocks accum_init).

(** [sel] is the maximal prefix of [blocks] whose cumulative gas is at most
    the threshold. *)
Definition maximal_gas_prefix (sel blocks : list BlockInfo) : Prop :=
  sel `prefix_of` blocks /\
  gas_sum sel <= 3000000 /\
  forall p, p `prefix_of` blocks -> gas_sum p <= 3000000 -> p `prefix_of` sel.

(** A block whose gas cannot make the running [uint64] sum wrap around. *)
Definition gas_fits (b : BlockInfo) : Prop :=
  to_Z (GasUsed b) <= 2 ^ 64 - 1 - 3000000.

(** A block that only carries a gas figure (the other fields are zero). *)
Definition block_with_gas (g : Z) : BlockInfo :=
  {| Number := u64 0; Hash := ""; ParentHash := ""; TxNum := u64 0;
     GasUsed := u64 g; BlockTimestamp := u64 0 |}.

(** The idle-deferral condition in the claim's words: every fetched block
    was consumed, the accumulated gas is strictly under the threshold, and
    the oldest block is less than 5 minutes (300 seconds) older than the
    clock reading.  Ages are differences of mathematical integers. *)
Definition idle_deferral (env : Env) (block0 : BlockInfo) (rest : list BlockInfo) : Prop :=
  selected (block0 :: rest) = block0 :: rest /\
  to_Z (gasUsed (accumulate (block0 :: rest) accum_init)) < 3000000 /\
  to_Z (now env) - to_Z (BlockTimestamp block0) < 300.

(** The error of the first store operation that fails during
    [createBatchForBlocks], in call order. *)
Definition first_failure (env : Env) : option error :=
  match Beginx_err env with
  | Some e => Some e
  | None =>
      match NewBatchInDBTx_result env with
      | inl e => Some e
      | inr _ =>
          match SetBatchIDForBlocksInDBTx_err env with
          | Some e => Some e
          | None => Commit_err env
          end
      end
  end.

(** The committed state with the batch row and every block assignment. *)
Definition with_batch (d : DB) (id : string) (blockIDs : list uint64)
    (startBlock endBlock : BlockInfo) (parentHash : string)
    (txNum gasUsed : uint64) : DB :=
  {| batches := batches d ++
       [{| batch_id := id; start_block := startBlock; end_block := endBlock;
           parent_hash := parentHash; total_tx_num := txNum;
           total_gas_used := gasUsed |}];
     block_batch := assign_all blockIDs id (block_batch d) |}.

(** *** Concrete inputs used by the examples *)

Definition empty_store : Store :=
  {| committed := {| batches := []; block_batch := ∅ |}; pending := None; calls := [] |}.

(** An environment in which every store operation succeeds. *)
Definition healthy_env (blocks : list BlockInfo) (clock : Z) : Env :=
  {| GetUnbatchedBlocks_result := inr blocks;
     now := u64 clock;
     Beginx_err := None;
     NewBatchInDBTx_result := inr "batch-1"%string;
     SetBatchIDForBlocksInDBTx_err := None;
     Commit_err := None;
     Rollback_err := None |}.

Definition block_at (number gas timestamp : Z) : BlockInfo :=
  {| Number := u64 number; Hash := ""; ParentHash := "";
     TxNum := u64 1; GasUsed := u64 gas; BlockTimestamp := u64 timestamp |}.

(** The gas figures of the batch-formation example. *)
Definition example_blocks : list BlockInfo :=
  [block_with_gas 1000000; block_with_gas 1000000;
   block_with_gas 1500000; block_with_gas 500000].

(** The same gas figures on blocks 1 to 4, stamped long before the clock
    readings used below. *)
Definition numbered_blocks : list BlockInfo :=
  [block_at 1 1000000 1600000000; block_at 2 1000000 1600000003;
   block_at 3 1500000 1600000006; block_at 4 500000 1600000009].

(** Two blocks whose gas adds up to [2^64]: the running sum wraps to 0. *)
Definition wrapping_blocks : list BlockInfo :=
  [block_with_gas 1000000; block_with_gas (2 ^ 64 - 1000000)].

(** A 100-second-old block whose timestamp is within 300 of [2^64]. *)
Definition late_block : BlockInfo := block_at 7 21000 (2 ^ 64 - 200).
Definition late_env : Env := healthy_env [late_block] (2 ^ 64 - 100).

(** A block stamped 1,700,000,000 that uses 21,000 gas. *)
Definition fresh_block : BlockInfo := block_at 1 21000 1700000000.

(** A block that alone uses more gas than a batch may hold. *)
Definition oversized_block : BlockInfo := block_at 9 3000001 1700000000.

(** An environment in which the store operation chosen by [broken] fails. *)
Definition failing_env (blocks : list BlockInfo) (broken : call) : Env :=
  {| GetUnbatchedBlocks_result := inr blocks;
     now := u64 1700000000;
     Beginx_err := match broken with CBeginx => Some "begin failed"%string | _ => None end;
     NewBatchInDBTx_result :=
       match broken with
       | CNewBatchInDBTx => inl "insert failed"%string
       | _ => inr "batch-1"%string
       end;
     SetBatchIDForBlocksInDBTx_err :=
       match broken with
       | CSetBatchIDForBlocksInDBTx => Some "update failed"%string
       | _ => None
       end;
     Commit_err := match broken with CCommit => Some "commit failed"%string | _ => None end;
     Rollback_err := None |}.

(** *** Vocabulary of the further properties *)

(** Transactions in a list of blocks, as a mathematical integer. *)
Definition tx_sum (l : list BlockInfo) : Z :=
  foldr (fun b acc => to_Z (TxNum b) + acc) 0 l.

(** The block numbers of a list of blocks, as keys of the assignment map. *)
Definition numbers (l : list BlockInfo) : list Z := (fun b => to_Z (Number b)) <$> l.

(** The calls an invocation added to the store's log. *)
Definition new_calls (before after : Store) : list call :=
  drop (length (calls before)) (calls after).

End L2.

(** ** Package message: proof messages *)

(** *** Bytes, and the library encoders the package calls *)

Definition Z_of_byte (b : byte) : Z := Z.of_N (Byte.to_N b).

(** Go's [byte(z)]: the low 8 bits. *)
Definition byte_of_Z (z : Z) : byte :=
  match Byte.of_N (Z.to_N (z mod 256)) with
  | Some b => b
  | None => x00
  end.

(** Bytes as the numbers below 256. *)
Definition byte_to_nat (b : byte) : nat := N.to_nat (Byte.to_N b).
Definition byte_of_nat (n : nat) : byte := byte_of_Z (Z.of_nat n).

(** Big-endian value of a byte string. *)
Definition be_to_Z (bs : list byte) : Z :=
  fold_left (fun acc b => 256 * acc + Z_of_byte b) bs 0.

(** The [n] low bytes of [i], most significant first. *)
Fixpoint be_bytes (n : nat) (i : Z) : list byte :=
  match n with
  | O => []
  | S n' => be_bytes n' (Z.shiftr i 8) ++ [byte_of_Z i]
  end.

Abbreviation uint8 := Naive.word8.
Abbreviation uint32 := Naive.word32.

(** Go's [encoding/hex]. *)
Module hex.

Definition hextable : list ascii := list_ascii_of_string "0123456789abcdef".

Definition hexdigit (n : Z) : ascii := nth (Z.to_nat n) hextable "0"%char.

(** [reverseHexTable]: the value of a hexadecimal character, or none. *)
Definition fromHexChar (c : ascii) : option Z :=
  let n := Z.of_N (N_of_ascii c) in
  if (48 <=? n) && (n <=? 57) then Some (n - 48)
  else if (97 <=? n) && (n <=? 102) then Some (n - 97 + 10)
  else if (65 <=? n) && (n <=? 70) then Some (n - 65 + 10)
  else None.

(** [dst[j] = hextable[v>>4]; dst[j+1] = hextable[v&0x0f]] *)
Fixpoint EncodeToString (src : list byte) : string :=
  match src with
  | [] => EmptyString
  | v :: rest =>
      String (hexdigit (Z.shiftr (Z_of_byte v) 4))
        (String (hexdigit (Z.land (Z_of_byte v) 15)) (EncodeToString rest))
  end.

Definition InvalidByteError : error := "encoding/hex: invalid byte"%string.
Definition ErrLength : error := "encoding/hex: odd length hex string"%string.

(** [DecodeString] "returns the bytes decoded before the error". *)
Fixpoint DecodeString (s : string) : list byte * option error :=
  match s with
  | EmptyString => ([], None)
  | String p EmptyString =>
      match fromHexChar p with
      | None => ([], Some InvalidByteError)
      | Some _ => ([], Some ErrLength)
      end
  | String p (String q rest) =>
      match fromHexChar p, fromHexChar q with
      | Some a, Some b =>
          let '(decoded, err) := DecodeString rest in
          (byte_of_Z (Z.lor (Z.shiftl a 4) b) :: decoded, err)
      | _, _ => ([], Some InvalidByteError)
      end
  end.

End hex.

(** go-ethereum's [common] and [common/hexutil]. *)
Module common.

Definition has0xPrefix (str : string) : bool :=
  match str with
  | String c0 (String c1 _) =>
      Ascii.eqb c0 "0" && (Ascii.eqb c1 "x" || Ascii.eqb c1 "X")
  | _ => false
  end.

(** [h, _ := hex.DecodeString(str); return h] *)
Definition Hex2Bytes (str : string) : list byte := fst (hex.DecodeString str).

Definition FromHex (s : string) : list byte :=
  let s := if has0xPrefix s then String.substring 2 (String.length s - 2) s else s in
  let s := if Nat.odd (String.length s) then String "0" s else s in
  Hex2Bytes s.

Definition Bytes2Hex (d : list byte) : string := hex.EncodeToString d.

End common.

Module hexutil.

Definition Encode (b : list byte) : string :=
  String "0" (String "x" (hex.EncodeToString b)).

End hexutil.

(** go-ethereum's [rlp] encoder, for the kinds of values a [ProofDetail]
    holds. *)
Module rlp.

(** [putint]: the big-endian bytes of a [uint64], without leading zeros. *)
Definition putint (i : Z) : list byte :=
  if i <? 2 ^ 8 then [byte_of_Z i]
  else if i <? 2 ^ 16 then [byte_of_Z (Z.shiftr i 8); byte_of_Z i]
  else if i <? 2 ^ 24 then
    [byte_of_Z (Z.shiftr i 16); byte_of_Z (Z.shiftr i 8); byte_of_Z i]
  else if i <? 2 ^ 32 then
    [byte_of_Z (Z.shiftr i 24); byte_of_Z (Z.shiftr i 16);
     byte_of_Z (Z.shiftr i 8); byte_of_Z i]
  else if i <? 2 ^ 40 then
    [byte_of_Z (Z.shiftr i 32); byte_of_Z (Z.shiftr i 24);
     byte_of_Z (Z.shiftr i 16); byte_of_Z (Z.shiftr i 8); byte_of_Z i]
  else if i <? 2 ^ 48 then
    [byte_of_Z (Z.shiftr i 40); byte_of_Z (Z.shiftr i 32);
     byte_of_Z (Z.shiftr i 24); byte_of_Z (Z.shiftr i 16);
     byte_of_Z (Z.shiftr i 8); byte_of_Z i]
  else if i <? 2 ^ 56 then
    [byte_of_Z (Z.shiftr i 48); byte_of_Z (Z.shiftr i 40);
     byte_of_Z (Z.shiftr i 32); byte_of_Z (Z.shiftr i 24);
     byte_of_Z (Z.shiftr i 16); byte_of_Z (Z.shiftr i 8); byte_of_Z i]
  else
    [byte_of_Z (Z.shiftr i 56); byte_of_Z (Z.shiftr i 48);
     byte_of_Z (Z.shiftr i 40); byte_of_Z (Z.shiftr i 32);
     byte_of_Z (Z.shiftr i 24); byte_of_Z (Z.shiftr i 16);
     byte_of_Z (Z.shiftr i 8); byte_of_Z i].

Definition len (bs : list byte) : Z := Z.of_nat (length bs).

(** [encodeStringHeader] *)
Definition encodeStringHeader (size : Z) : list byte :=
  if size <? 56 then [byte_of_Z (128 + size)]
  else byte_of_Z (183 + len (putint size)) :: putint size.

(** The header [listEnd] puts before a list's payload. *)
Definition encodeListHeader (size : Z) : list byte :=
  if size <? 56 then [byte_of_Z (192 + size)]
  else byte_of_Z (247 + len (putint size)) :: putint size.

(** [writeBytes], [writeString] and the byte-array writer. *)
Definition writeBytes (s : list byte) : list byte :=
  match s with
  | [b] => if Z_of_byte b <=? 127 then [b] else encodeStringHeader 1 ++ [b]
  | _ => encodeStringHeader (len s) ++ s
  end.

Definition writeString (s : string) : list byte := writeBytes (list_byte_of_string s).

(** [writeUint] *)
Definition writeUint (i : Z) : list byte :=
  if i =? 0 then [x80]
  else if i <? 128 then [byte_of_Z i]
  else byte_of_Z (128 + len (putint i)) :: putint i.

(** [writeBool] *)
Definition writeBool (b : bool) : list byte := if b then [x01] else [x80].

(** A struct or a slice of structs: the header, then the payload. *)
Definition writeList (payload : list byte) : list byte :=
  encodeListHeader (len payload) ++ payload.

(** A nil pointer to a struct ([nilEncoding] of the pointer writer). *)
Definition nilList : list byte := [xc0].

(** Reading back: the item at the head of an encoding, as whether it is a
    list, its content, and the bytes that follow it.  The encoder never
    calls it; it is what makes the encoding uniquely readable. *)
Definition split_item (bs : list byte) : option (bool * list byte * list byte) :=
  match bs with
  | [] => None
  | t :: rest =>
      let n := Z_of_byte t in
      if n <? 128 then Some (false, [t], rest)
      else if n <? 184 then
        Some (false, take (Z.to_nat (n - 128)) rest, drop (Z.to_nat (n - 128)) rest)
      else if n <? 192 then
        let k := Z.to_nat (n - 183) in
        let size := Z.to_nat (be_to_Z (take k rest)) in
        Some (false, take size (drop k rest), drop size (drop k rest))
      else if n <? 248 then
        Some (true, take (Z.to_nat (n - 192)) rest, drop (Z.to_nat (n - 192)) rest)
      else
        let k := Z.to_nat (n - 247) in
        let size := Z.to_nat (be_to_Z (take k rest)) in
        Some (true, take size (drop k rest), drop size (drop k rest))
  end.

(** An encoding that fits a Go slice. *)
Definition fits (bs : list byte) : Prop := len bs < 2 ^ 64.

End rlp.

(** go-ethereum's [crypto.Keccak256Hash]: Keccak-256 (rate 136 bytes,
    padding [0x01 .. 0x80]) over the Keccak-f[1600] permutation. *)
Module keccak.

Definition mask64 : Z := Z.ones 64.

Definition rotl64 (w n : Z) : Z :=
  Z.land (Z.lor (Z.shiftl w n) (Z.shiftr w (64 - n))) mask64.

(** Lane [(x, y)] of a state of 25 lanes, coordinates taken modulo 5. *)
Definition lane (A : list Z) (x y : Z) : Z :=
  nth (Z.to_nat (x mod 5 + 5 * (y mod 5))) A 0.

Definition coords : list (Z * Z) :=
  flat_map (fun y => map (fun x => (x, y)) [0; 1; 2; 3; 4]) [0; 1; 2; 3; 4].

Definition rotation_offsets : list Z :=
  [ 0;  1; 62; 28; 27;
   36; 44;  6; 55; 20;
    3; 10; 43; 25; 39;
   41; 45; 15; 21;  8;
   18;  2; 61; 56; 14].

Definition round_constants : list Z :=
  [0x0000000000000001; 0x0000000000008082; 0x800000000000808A; 0x8000000080008000;
   0x000000000000808B; 0x0000000080000001; 0x8000000080008081; 0x8000000000008009;
   0x000000000000008A; 0x0000000000000088; 0x0000000080008009; 0x000000008000000A;
   0x000000008000808B; 0x800000000000008B; 0x8000000000008089; 0x8000000000008003;
   0x8000000000008002; 0x8000000000000080; 0x000000000000800A; 0x800000008000000A;
   0x8000000080008081; 0x8000000000008080; 0x0000000080000001; 0x8000000080008008].

Definition theta (A : list Z) : list Z :=
  let C x := fold_left Z.lxor (map (fun y => lane A x y) [0; 1; 2; 3; 4]) 0 in
  let D x := Z.lxor (C (x - 1)) (rotl64 (C (x + 1)) 1) in
  map (fun '(x, y) => Z.lxor (lane A x y) (D x)) coords.

(** [B[y, 2x+3y] = rotl(A[x, y], r[x, y])], read from the target lane. *)
Definition rho_pi (A : list Z) : list Z :=
  map (fun '(X, Y) =>
         let x := (X + 3 * Y) mod 5 in
         let y := X in
         rotl64 (lane A x y) (lane rotation_offsets x y)) coords.

Definition chi (B : list Z) : list Z :=
  map (fun '(x, y) =>
         Z.lxor (lane B x y)
           (Z.land (Z.lxor (lane B (x + 1) y) mask64) (lane B (x + 2) y))) coords.

Definition iota (rc : Z) (A : list Z) : list Z :=
  match A with
  | a :: rest => Z.lxor a rc :: rest
  | [] => []
  end.

Definition round (A : list Z) (rc : Z) : list Z := iota rc (chi (rho_pi (theta A))).

Definition keccak_f (A : list Z) : list Z := fold_left round round_constants A.

Definition rate : nat := 136.

Fixpoint le_lane (bs : list byte) : Z :=
  match bs with
  | [] => 0
  | b :: rest => Z_of_byte b + 256 * le_lane rest
  end.

Fixpoint lanes_of (n : nat) (bs : list byte) : list Z :=
  match n with
  | O => []
  | S n' => le_lane (firstn 8 bs) :: lanes_of n' (skipn 8 bs)
  end.

Definition absorb_block (A : list Z) (block : list byte) : list Z :=
  keccak_f (map (fun '(a, b) => Z.lxor a b) (combine A (lanes_of 25 block))).

Definition pad (tail : list byte) : list byte :=
  let n := (rate - length tail)%nat in
  if (n =? 1)%nat then tail ++ [x81]
  else tail ++ [x01] ++ repeat x00 (n - 2) ++ [x80].

Fixpoint absorb (fuel : nat) (A : list Z) (msg : list byte) : list Z :=
  match fuel with
  | O => A
  | S fuel' =>
      if (length msg <? rate)%nat then absorb_block A (pad msg)
      else absorb fuel' (absorb_block A (firstn rate msg)) (skipn rate msg)
  end.

Definition squeeze (A : list Z) : list byte :=
  map (fun i => byte_of_Z (Z.shiftr (nth (i / 8) A 0) (8 * Z.of_nat (i mod 8))))
      (seq 0 32).

Definition Keccak256 (msg : list byte) : list byte :=
  squeeze (absorb (S (length msg / rate)) (repeat 0 25) msg).

End keccak.

(** The curve operations of go-ethereum's [crypto] package that the
    package calls.  They are library code outside the sources, so a
    signature scheme is a parameter of the protocol functions. *)
Record SigScheme : Type := {
  PrivateKey : Type;                                   (* *ecdsa.PrivateKey *)
  PublicKeyT : Type;                                   (* *ecdsa.PublicKey *)
  pubkey_of : PrivateKey -> PublicKeyT;                (* priv.PublicKey *)
  crypto_Sign : list byte -> PrivateKey -> error + list byte;
  crypto_SigToPub : list byte -> list byte -> error + PublicKeyT;
  crypto_CompressPubkey : PublicKeyT -> list byte;
  crypto_VerifySignature : list byte -> list byte -> list byte -> bool;
}.

Module message.

(** *** Types *)

Definition ProofTypeChunk : uint8 := word.of_Z 1.
Definition ProofTypeBatch : uint8 := word.of_Z 2.

(** [RespStatus]: a [uint32]. *)
Definition StatusOk : uint32 := word.of_Z 0.
Definition StatusProofError : uint32 := word.of_Z 1.

(** [common.Hash] is [[32]byte]. *)
Abbreviation Hash32 := (vec byte 32).

(** *** Proof types and tokens *)


(** [func GenerateToken() (string, error)].  [rand.Read(b)] either fails
    or fills the whole of [b] ("n == len(b) if and only if err == nil"):
    what the entropy source answers to a request for [n] bytes is an error
    or the bytes. *)
Definition GenerateToken (rand_Read : nat -> error + list byte) : string * option error :=
  match rand_Read 16%nat with
  | inl err => (EmptyString, Some err)
  | inr b => (hex.EncodeToString b, None)
  end.

Module ChunkInfo.
Record t : Type := {
  ChainID : uint64;
  PrevStateRoot : Hash32;
  PostStateRoot : Hash32;
  WithdrawRoot : Hash32;
  DataHash : Hash32;
  IsPadding : bool;
  TxBytes : list byte;
}.

(** The struct writer: every field in declaration order, then the list
    header in front. *)
Definition fields (c : t) : list byte :=
  rlp.writeUint (word.unsigned (ChainID c))
  ++ rlp.writeBytes (vec_to_list (PrevStateRoot c))
  ++ rlp.writeBytes (vec_to_list (PostStateRoot c))
  ++ rlp.writeBytes (vec_to_list (WithdrawRoot c))
  ++ rlp.writeBytes (vec_to_list (DataHash c))
  ++ rlp.writeBool (IsPadding c)
  ++ rlp.writeBytes (TxBytes c).

Definition EncodeRLP (c : t) : list byte := rlp.writeList (fields c).
End ChunkInfo.

Module SubCircuitRowUsage.
Record t : Type := {
  Name : string;
  RowNumber : uint64;
}.

Definition fields (u : t) : list byte :=
  rlp.writeString (Name u) ++ rlp.writeUint (word.unsigned (RowNumber u)).

Definition EncodeRLP (u : t) : list byte := rlp.writeList (fields u).
End SubCircuitRowUsage.

Module ChunkProof.
Record t : Type := {
  StorageTrace : list byte;
  Protocol : list byte;
  Proof : list byte;
  Instances : list byte;
  Vk : list byte;
  ChunkInfo : option ChunkInfo.t;                (* *ChunkInfo *)
  GitVersion : string;
  RowUsages : list SubCircuitRowUsage.t;
}.

Definition fields (p : t) : list byte :=
  rlp.writeBytes (StorageTrace p)
  ++ rlp.writeBytes (Protocol p)
  ++ rlp.writeBytes (Proof p)
  ++ rlp.writeBytes (Instances p)
  ++ rlp.writeBytes (Vk p)
  ++ match ChunkInfo p with
     | None => rlp.nilList
     | Some c => ChunkInfo.EncodeRLP c
     end
  ++ rlp.writeString (GitVersion p)
  ++ rlp.writeList (concat (SubCircuitRowUsage.EncodeRLP <$> RowUsages p)).

Definition EncodeRLP (p : t) : list byte := rlp.writeList (fields p).
End ChunkProof.

Module BatchProof.
Record t : Type := {
  Proof : list byte;
  Instances : list byte;
  Vk : list byte;
  GitVersion : string;
}.

Definition fields (p : t) : list byte :=
  rlp.writeBytes (Proof p)
  ++ rlp.writeBytes (Instances p)
  ++ rlp.writeBytes (Vk p)
  ++ rlp.writeString (GitVersion p).

Definition EncodeRLP (p : t) : list byte := rlp.writeList (fields p).

(** [func (ap *BatchProof) SanityCheck() error]; the receiver may be nil. *)
Definition SanityCheck (ap : option t) : exec (option error) :=
  match ap with
  | None => Returns (Some "agg_proof is nil"%string)
  | Some ap =>
      if (length (Proof ap) =? 0)%nat then Returns (Some "proof not ready"%string)
      else if negb (length (Proof ap) mod 32 =? 0)%nat then
        Returns (Some (String.append "proof buffer has wrong length, expected: 32, got: "
                         (fmt_d (Z.of_nat (length (Proof ap))))))
      else Returns None
  end.
End BatchProof.

Module ProofDetail.
Record t : Type := {
  ID : string;
  Type_ : uint8;                                 (* Type ProofType *)
  Status : uint32;                               (* RespStatus *)
  ChunkProof : option ChunkProof.t;              (* *ChunkProof *)
  BatchProof : option BatchProof.t;              (* *BatchProof *)
  Error : string;
}.

Definition fields (z : t) : list byte :=
  rlp.writeString (ID z)
  ++ rlp.writeUint (word.unsigned (Type_ z))
  ++ rlp.writeUint (word.unsigned (Status z))
  ++ match ChunkProof z with
     | None => rlp.nilList
     | Some p => ChunkProof.EncodeRLP p
     end
  ++ match BatchProof z with
     | None => rlp.nilList
     | Some p => BatchProof.EncodeRLP p
     end
  ++ rlp.writeString (Error z).

Definition EncodeRLP (z : t) : list byte := rlp.writeList (fields z).


(** [rlp.EncodeToBytes(z)] for [z *ProofDetail]: every field has an
    encodable kind, so the error result is always nil. *)
Definition EncodeToBytes (z : option t) : list byte * option error :=
  match z with
  | None => (rlp.nilList, None)
  | Some z => (EncodeRLP z, None)
  end.

(** [func (z *ProofDetail) Hash() ([]byte, error)] *)
Definition Hash (z : option t) : list byte * option error :=
  match EncodeToBytes z with
  | (_, Some err) => ([], Some err)
  | (byt, None) => (keccak.Keccak256 byt, None)
  end.
End ProofDetail.

Module ProofMsg.
Record t : Type := {
  zkProof : option ProofDetail.t;                (* the embedded *ProofDetail *)
  Signature : string;
  publicKey : string;
}.

(** [a.Signature = sig] and [a.publicKey = pk] on the receiver. *)
Definition with_signature (a : t) (sig : string) : t :=
  {| zkProof := zkProof a; Signature := sig; publicKey := publicKey a |}.

Definition with_publicKey (a : t) (pk : string) : t :=
  {| zkProof := zkProof a; Signature := Signature a; publicKey := pk |}.

Section WithScheme.
Context (S : SigScheme).

(** [func (a *ProofMsg) Sign(priv *ecdsa.PrivateKey) error] *)
Definition Sign (a : t) (priv : PrivateKey S) : t * option error :=
  match ProofDetail.Hash (zkProof a) with
  | (_, Some err) => (a, Some err)
  | (hash, None) =>
      match crypto_Sign S hash priv with
      | inl err => (a, Some err)
      | inr sig => (with_signature a (hexutil.Encode sig), None)
      end
  end.

(** [sig[:len(sig)-1]] *)
Definition drop_last_byte (sig : list byte) : exec (list byte) :=
  if (length sig =? 0)%nat
  then Panics "runtime error: slice bounds out of range [:-1]"%string
  else Returns (firstn (length sig - 1) sig).

(** The last statement of [Verify]:
    [return crypto.VerifySignature(common.FromHex(a.publicKey), hash,
    sig[:len(sig)-1]), nil] *)
Definition verify_signature (a : t) (hash sig : list byte)
    : exec (t * (bool * option error)) :=
  match drop_last_byte sig with
  | Panics v => Panics v
  | Returns rs =>
      Returns (a, (crypto_VerifySignature S (common.FromHex (publicKey a)) hash rs, None))
  end.

(** [func (a *ProofMsg) Verify() (bool, error)] *)
Definition Verify (a : t) : exec (t * (bool * option error)) :=
  match ProofDetail.Hash (zkProof a) with
  | (_, Some err) => Returns (a, (false, Some err))
  | (hash, None) =>
      let sig := common.FromHex (Signature a) in
      (* recover public key *)
      if String.eqb (publicKey a) ""
      then
        match crypto_SigToPub S hash sig with
        | inl err => Returns (a, (false, Some err))
        | inr pk =>
            verify_signature
              (with_publicKey a (common.Bytes2Hex (crypto_CompressPubkey S pk)))
              hash sig
        end
      else verify_signature a hash sig
  end.

(** [func (a *ProofMsg) PublicKey() (string, error)] *)
Definition PublicKey (a : t) : t * (string * option error) :=
  if String.eqb (publicKey a) ""
  then
    match ProofDetail.Hash (zkProof a) with
    | (_, Some err) => (a, (EmptyString, Some err))
    | (hash, None) =>
        let sig := common.FromHex (Signature a) in
        match crypto_SigToPub S hash sig with
        | inl err => (a, (EmptyString, Some err))
        | inr pk =>
            let a := with_publicKey a (common.Bytes2Hex (crypto_CompressPubkey S pk)) in
            (a, (publicKey a, None))
        end
    end
  else (a, (publicKey a, None)).

(** The identity of the holder of [priv]: the compressed public key
    derived from it, in hexadecimal. *)
Definition signer_id (priv : PrivateKey S) : string :=
  common.Bytes2Hex (crypto_CompressPubkey S (pubkey_of S priv)).

End WithScheme.
End ProofMsg.

End message.

(** *** The contract of the signature primitives *)

(** The order of the secp256k1 group. *)
Definition secp256k1_N : Z :=
  0xFFFFFFFFFFFFFFFFFFFFFFFFFFFFFFFEBAAEDCE6AF48A03BBFD25E8CD0364141.

(** The [s] component of a signature [R || S || V]. *)
Definition sig_s (sig : list byte) : Z := be_to_Z (firstn 32 (skipn 32 sig)).

(** [s] is in canonical (low) form: at most half the group order. *)
Definition low_s (sig : list byte) : bool := sig_s sig <=? secp256k1_N / 2.

(** What the protocol relies on from go-ethereum's [crypto] package:
    - [Sign] produces a 65-byte signature [R || S || V] with [s] in its lower
      half, from which [SigToPub] recovers the signer's key;
    - [SigToPub] ([secp256k1.RecoverPubkey]) refuses a signature that is not
      65 bytes long;
    - ECDSA recovery: [(r, s)] verifies under the key recovered from
      [(r, s, v)]; [VerifySignature] accepts it when [s] is in its lower half;
    - [VerifySignature] refuses a signature that is not 64 bytes long;
    - a compressed public key is 33 bytes long. *)
Record SigLaws (S : SigScheme) : Prop := {
  sign_length : forall h k sig,
    crypto_Sign S h k = inr sig -> length sig = 65%nat;
  sign_low_s : forall h k sig,
    crypto_Sign S h k = inr sig -> low_s sig = true;
  sign_recover : forall h k sig,
    crypto_Sign S h k = inr sig -> crypto_SigToPub S h sig = inr (pubkey_of S k);
  recover_length : forall h sig pk,
    crypto_SigToPub S h sig = inr pk -> length sig = 65%nat;
  recover_verify : forall h sig pk,
    crypto_SigToPub S h sig = inr pk -> low_s sig = true ->
    crypto_VerifySignature S (crypto_CompressPubkey S pk) h (firstn 64 sig) = true;
  verify_length : forall pk h rs,
    crypto_VerifySignature S pk h rs = true -> length rs = 64%nat;
  compress_length : forall pk,
    length (crypto_CompressPubkey S pk) = 33%nat;
}.

(** *** A small scheme that satisfies the contract

    Keys are single bytes; the signature of [h] under [k] is [h] itself as
    [r], [k] as [s] and a zero recovery byte.  It has no security, and is
    only here to run the protocol functions on concrete messages. *)
Module Toy.

Definition list_byte_eqb (a b : list byte) : bool :=
  (length a =? length b)%nat && forallb (fun '(x, y) => Byte.eqb x y) (combine a b).

Definition zeros31 : list byte := repeat x00 31.

Definition compress (k : byte) : list byte := x02 :: zeros31 ++ [k].

Definition sign (h : list byte) (k : byte) : error + list byte :=
  if (length h =? 32)%nat then inr (h ++ zeros31 ++ [k; x00])
  else inl "hash is required to be exactly 32 bytes"%string.

(** [r] must be the hash and the upper 31 bytes of [s] zero. *)
Definition well_formed (h rs : list byte) : bool :=
  (length h =? 32)%nat
  && list_byte_eqb (firstn 32 rs) h
  && list_byte_eqb (firstn 31 (skipn 32 rs)) zeros31.

Definition recover (h sig : list byte) : error + byte :=
  if (length sig =? 65)%nat && well_formed h sig && (Z_of_byte (nth 64 sig x00) <? 4)
  then inr (nth 63 sig x00)
  else inl "recovery failed"%string.

Definition verify (pk h rs : list byte) : bool :=
  (length rs =? 64)%nat && well_formed h rs && list_byte_eqb pk (compress (nth 63 rs x00)).

Definition scheme : SigScheme :=
  {| PrivateKey := byte;
     PublicKeyT := byte;
     pubkey_of := fun k => k;
     crypto_Sign := sign;
     crypto_SigToPub := recover;
     crypto_CompressPubkey := compress;
     crypto_VerifySignature := verify |}.

End Toy.

(** *** Concrete messages used by the examples *)
Module Examples.
Import message.

Definition batch_proof_64 : BatchProof.t :=
  {| BatchProof.Proof := repeat x01 64; BatchProof.Instances := [];
     BatchProof.Vk := []; BatchProof.GitVersion := "v4.1.0" |}.

Definition batch_proof_33 : BatchProof.t :=
  {| BatchProof.Proof := repeat x01 33; BatchProof.Instances := [];
     BatchProof.Vk := []; BatchProof.GitVersion := "v4.1.0" |}.

Definition detail : ProofDetail.t :=
  {| ProofDetail.ID := "task-1";
     ProofDetail.Type_ := ProofTypeBatch;
     ProofDetail.Status := StatusOk;
     ProofDetail.ChunkProof := None;
     ProofDetail.BatchProof := Some batch_proof_64;
     ProofDetail.Error := "" |}.

(** A message as a prover builds it: not yet signed, no cached key. *)
Definition unsigned_msg : ProofMsg.t :=
  {| ProofMsg.zkProof := Some detail; ProofMsg.Signature := "";
     ProofMsg.publicKey := "" |}.

Definition key : byte := x2a.

(** The message signed with [key] ... *)
Definition signed_msg : ProofMsg.t := fst (ProofMsg.Sign Toy.scheme unsigned_msg key).

(** ... the same after a first [Verify] has cached the signer's key ... *)
Definition verified_msg : ProofMsg.t :=
  match ProofMsg.Verify Toy.scheme signed_msg with
  | Returns (a, _) => a
  | Panics _ => signed_msg
  end.

Definition verified_msg_with (sig : string) : ProofMsg.t :=
  ProofMsg.with_signature verified_msg sig.

(** ... with two characters that are not hexadecimal after the signature ... *)
Definition garbage_msg : ProofMsg.t :=
  ProofMsg.with_signature signed_msg
    (String.append (ProofMsg.Signature signed_msg) "zz").

(** ... and with the last byte of the signature changed from 00 to ff,
    on the message that holds the signer's key. *)
Definition flipped_msg : ProofMsg.t :=
  ProofMsg.with_signature verified_msg
    (String.append
       (String.substring 0 (String.length (ProofMsg.Signature verified_msg) - 2)
          (ProofMsg.Signature verified_msg))
       "ff").

(** The same tampered signature on the message without a cached key. *)
Definition flipped_fresh_msg : ProofMsg.t :=
  ProofMsg.with_signature signed_msg (ProofMsg.Signature flipped_msg).


(** A message with a cached key whose signature was lost. *)
Definition cached_msg (sig : string) : ProofMsg.t :=
  {| ProofMsg.zkProof := Some detail; ProofMsg.Signature := sig;
     ProofMsg.publicKey := "02aa" |}.

End Examples.

(** *** Further messages and inputs *)
Module Scenarios.
Import message.

(** An entropy source that always answers with the byte [a7]. *)
Definition constant_source (n : nat) : error + list byte := inr (repeat xa7 n).

(** A second key, and the verified message signed again with it: the
    signature is the new key's, the cached key is still the first one's. *)
Definition other_key : byte := x2b.

Definition resigned_msg : ProofMsg.t :=
  fst (ProofMsg.Sign Toy.scheme Examples.verified_msg other_key).

(** The signed message with its signature written without the [0x]
    prefix. *)
Definition unprefixed_msg : ProofMsg.t :=
  ProofMsg.with_signature Examples.signed_msg
    (String.substring 2 130 (ProofMsg.Signature Examples.signed_msg)).

(** A message without a detail, and the same signed with the example key. *)
Definition bare_msg : ProofMsg.t :=
  {| ProofMsg.zkProof := None; ProofMsg.Signature := EmptyString;
     ProofMsg.publicKey := EmptyString |}.

Definition signed_bare_msg : ProofMsg.t := fst (ProofMsg.Sign Toy.scheme bare_msg Examples.key).

End Scenarios.

(** * Properties of the batch proposer *)
Module L2Proofs.
Import L2.

(** ** Machine-word arithmetic in terms of [Z] *)

Lemma to_Z_range (w : uint64) : 0 <= to_Z w < 2 ^ 64.
Proof. unfold to_Z. apply word.unsigned_range. Qed.

Lemma to_Z_add (a b : uint64) : to_Z (word.add a b) = (to_Z a + to_Z b) mod 2 ^ 64.
Proof. unfold to_Z. rewrite word.unsigned_add. reflexivity. Qed.

Lemma ltu_to_Z (a b : uint64) : word.ltu a b = (to_Z a <? to_Z b).
Proof. unfold to_Z. apply word.unsigned_ltu. Qed.

Lemma to_Z_u64 (z : Z) : 0 <= z < 2 ^ 64 -> to_Z (u64 z) = z.
Proof.
  intros Hz. unfold to_Z, u64. rewrite word.unsigned_of_Z.
  unfold word.wrap. apply Z.mod_small. exact Hz.
Qed.

Lemma to_Z_inj (a b : uint64) : to_Z a = to_Z b -> a = b.
Proof. unfold to_Z. apply word.unsigned_inj. Qed.

Lemma to_Z_batchGasThreshold : to_Z batchGasThreshold = 3000000.
Proof. reflexivity. Qed.

Lemma to_Z_batchTimeSec : to_Z batchTimeSec = 300.
Proof. reflexivity. Qed.

(** ** The accumulation loop *)

(** Split on the condition of the [if] the goal is stuck on. *)
Ltac case_if :=
  match goal with
  | |- context [if ?c then _ else _] => destruct c eqn:?
  end.

Lemma gas_sum_nonneg (l : list BlockInfo) : 0 <= gas_sum l.
Proof.
  induction l as [|b l IH]; simpl; [lia|].
  pose proof (to_Z_range (GasUsed b)). lia.
Qed.

Lemma gas_sum_cons (b : BlockInfo) (l : list BlockInfo) :
  gas_sum (b :: l) = to_Z (GasUsed b) + gas_sum l.
Proof. reflexivity. Qed.

Lemma gas_sum_app (l1 l2 : list BlockInfo) : gas_sum (l1 ++ l2) = gas_sum l1 + gas_sum l2.
Proof. induction l1 as [|b l1 IH]; simpl; lia. Qed.

(** Whatever the gas figures, the loop appends a prefix of the fetched
    blocks, and the ids it collects are the numbers of those blocks. *)
Lemma accumulate_appends_prefix (blocks : list BlockInfo) :
  forall a, exists sel,
    sel `prefix_of` blocks /\
    blocksToBatch (accumulate blocks a) = blocksToBatch a ++ sel /\
    idsToBatch (accumulate blocks a) = idsToBatch a ++ (Number <$> sel).
Proof.
  induction blocks as [|b rest IH]; intros a; cbn [accumulate].
  - exists []. rewrite !app_nil_r. auto.
  - case_if.
    + exists []. rewrite !app_nil_r. split; [apply prefix_nil|auto].
    + destruct (IH {| idsToBatch := idsToBatch a ++ [Number b];
                      blocksToBatch := blocksToBatch a ++ [b];
                      txNum := word.add (txNum a) (TxNum b);
                      gasUsed := word.add (gasUsed a) (GasUsed b) |})
        as (sel & Hpre & Hb & Hi).
      exists (b :: sel). cbn [blocksToBatch idsToBatch] in *.
      split; [by apply prefix_cons|].
      rewrite Hb, Hi, <- !app_assoc. auto.
Qed.

Lemma selected_prefix (blocks : list BlockInfo) : selected blocks `prefix_of` blocks.
Proof.
  destruct (accumulate_appends_prefix blocks accum_init) as (sel & Hpre & Hb & _).
  unfold selected. rewrite Hb. exact Hpre.
Qed.

Lemma selected_ids (blocks : list BlockInfo) :
  idsToBatch (accumulate blocks accum_init) = Number <$> selected blocks.
Proof.
  destruct (accumulate_appends_prefix blocks accum_init) as (sel & _ & Hb & Hi).
  unfold selected. rewrite Hb, Hi. reflexivity.
Qed.

(** With gas figures that cannot wrap the running sum, the variable
    [gasUsed] is the true cumulative gas, it stays within the threshold, and
    no longer prefix fits. *)
Lemma accumulate_gas (blocks : list BlockInfo) :
  forall a,
    to_Z (gasUsed a) <= 3000000 ->
    Forall gas_fits blocks ->
    exists sel,
      blocksToBatch (accumulate blocks a) = blocksToBatch a ++ sel /\
      to_Z (gasUsed (accumulate blocks a)) = to_Z (gasUsed a) + gas_sum sel /\
      to_Z (gasUsed a) + gas_sum sel <= 3000000 /\
      (forall p, p `prefix_of` blocks ->
                 to_Z (gasUsed a) + gas_sum p <= 3000000 -> p `prefix_of` sel).
Proof.
  induction blocks as [|b rest IH]; intros a Ha Hfit; cbn [accumulate].
  - exists []. rewrite app_nil_r. simpl. repeat split; try lia.
    intros p Hp _. exact Hp.
  - apply Forall_cons in Hfit as [Hb Hrest]. unfold gas_fits in Hb.
    pose proof (to_Z_range (gasUsed a)) as Hra.
    pose proof (to_Z_range (GasUsed b)) as Hrb.
    assert (Hsum : to_Z (word.add (gasUsed a) (GasUsed b))
                   = to_Z (gasUsed a) + to_Z (GasUsed b)).
    { rewrite to_Z_add. apply Z.mod_small. lia. }
    rewrite ltu_to_Z, Hsum, to_Z_batchGasThreshold.
    destruct (Z.ltb_spec 3000000 (to_Z (gasUsed a) + to_Z (GasUsed b))) as [Hover|Hok].
    + exists []. rewrite app_nil_r. simpl. repeat split; try lia.
      intros p Hp Hg. destruct p as [|b' p']; [apply prefix_nil|].
      apply prefix_cons_inv_1 in Hp as ->. rewrite gas_sum_cons in Hg.
      pose proof (gas_sum_nonneg p'). lia.
    + destruct (IH {| idsToBatch := idsToBatch a ++ [Number b];
                      blocksToBatch := blocksToBatch a ++ [b];
                      txNum := word.add (txNum a) (TxNum b);
                      gasUsed := word.add (gasUsed a) (GasUsed b) |})
        as (sel & Hbs & Hg & Hle & Hmax); cbn [gasUsed blocksToBatch] in *;
        [lia|exact Hrest|].
      rewrite Hsum in Hg, Hle, Hmax.
      exists (b :: sel). rewrite gas_sum_cons.
      rewrite Hbs, Hg, <- app_assoc. repeat split; try lia.
      intros p Hp Hgp. destruct p as [|b' p']; [apply prefix_nil|].
      pose proof (prefix_cons_inv_1 _ _ _ _ Hp) as ->.
      apply prefix_cons, Hmax; [by eapply prefix_cons_inv_2|].
      rewrite gas_sum_cons in Hgp. lia.
Qed.

(** ** Batch formation *)

(** C4 (as amended): when no block's gas can wrap the running [uint64] sum
    (each is at most [2^64 - 1 - 3,000,000]), the blocks selected by the
    greedy accumulation of [tryProposeBatch] are exactly the maximal prefix
    of the fetched list whose cumulative gas is at most 3,000,000 (a prefix
    reaching exactly 3,000,000 fits, hence is included); the loop's
    [gasUsed] is that cumulative gas, the collected ids are the selected
    blocks' numbers, and the first block left out would push the cumulative
    gas over the threshold. *)
Theorem accumulate_selects_maximal_prefix (blocks : list BlockInfo) :
  Forall gas_fits blocks ->
  maximal_gas_prefix (selected blocks) blocks /\
  to_Z (gasUsed (accumulate blocks accum_init)) = gas_sum (selected blocks) /\
  idsToBatch (accumulate blocks accum_init) = Number <$> selected blocks /\
  (forall b rest, blocks = selected blocks ++ b :: rest ->
                  3000000 < gas_sum (selected blocks) + to_Z (GasUsed b)).
Proof.
  intros Hfit.
  destruct (accumulate_gas blocks accum_init) as (sel & Hb & Hg & Hle & Hmax);
    [vm_compute; discriminate|exact Hfit|].
  change (to_Z (gasUsed accum_init)) with 0 in *.
  assert (Hsel : selected blocks = sel) by (unfold selected; rewrite Hb; reflexivity).
  rewrite Hsel. repeat split.
  - rewrite <- Hsel. apply selected_prefix.
  - lia.
  - intros p Hp Hgp. apply Hmax; [exact Hp|lia].
  - lia.
  - rewrite selected_ids, Hsel. reflexivity.
  - intros b rest Hblocks.
    destruct (Z.ltb_spec 3000000 (gas_sum sel + to_Z (GasUsed b))) as [Hlt|Hge];
      [exact Hlt|exfalso].
    assert (Hp : (sel ++ [b]) `prefix_of` sel).
    { apply Hmax.
      - exists rest. rewrite <- app_assoc. exact Hblocks.
      - rewrite gas_sum_app, gas_sum_cons. simpl. lia. }
    apply prefix_length in Hp. rewrite length_app in Hp. simpl in Hp. lia.
Qed.

(** The example of the claim: gas usages [1,000,000; 1,000,000; 1,500,000;
    500,000] select exactly the first two blocks. *)
Lemma selected_example (b1 b2 b3 b4 : BlockInfo) :
  to_Z (GasUsed b1) = 1000000 -> to_Z (GasUsed b2) = 1000000 ->
  to_Z (GasUsed b3) = 1500000 -> to_Z (GasUsed b4) = 500000 ->
  selected [b1; b2; b3; b4] = [b1; b2].
Proof.
  intros H1 H2 H3 H4. unfold selected. cbn [accumulate accum_init gasUsed].
  rewrite ltu_to_Z, to_Z_add, H1, to_Z_batchGasThreshold.
  change (to_Z (u64 0)) with 0. change ((0 + 1000000) mod 2 ^ 64) with 1000000.
  change (3000000 <? 1000000) with false. cbn [gasUsed].
  rewrite ltu_to_Z, !to_Z_add, H1, H2, to_Z_batchGasThreshold.
  change (to_Z (u64 0)) with 0.
  change (((0 + 1000000) mod 2 ^ 64 + 1000000) mod 2 ^ 64) with 2000000.
  change (3000000 <? 2000000) with false. cbn [gasUsed].
  rewrite ltu_to_Z, !to_Z_add, H1, H2, H3, to_Z_batchGasThreshold.
  change (to_Z (u64 0)) with 0.
  change ((((0 + 1000000) mod 2 ^ 64 + 1000000) mod 2 ^ 64 + 1500000) mod 2 ^ 64)
    with 3500000.
  change (3000000 <? 3500000) with true. reflexivity.
Qed.

Lemma example_blocks_fit : Forall gas_fits example_blocks.
Proof. repeat constructor; unfold gas_fits; vm_compute; discriminate. Qed.

(** The theorem on the four blocks of the example. *)
Lemma accumulate_selects_maximal_prefix_witness :
  Forall gas_fits example_blocks /\
  maximal_gas_prefix (selected example_blocks) example_blocks /\
  to_Z (gasUsed (accumulate example_blocks accum_init)) = gas_sum (selected example_blocks) /\
  idsToBatch (accumulate example_blocks accum_init) = Number <$> selected example_blocks /\
  (forall b rest, example_blocks = selected example_blocks ++ b :: rest ->
                  3000000 < gas_sum (selected example_blocks) + to_Z (GasUsed b)).
Proof.
  split; [exact example_blocks_fit|].
  apply (accumulate_selects_maximal_prefix example_blocks).
  repeat constructor; unfold gas_fits; vm_compute; discriminate.
Defined.

(** On blocks 1 to 4 with those gas figures, one proposal commits a single
    batch that spans blocks 1 and 2, totals 2,000,000 gas, and leaves blocks
    3 and 4 unbatched. *)
Lemma numbered_blocks_first_proposal :
  let r := tryProposeBatch (healthy_env numbered_blocks 1700000000) empty_store in
  snd r = Returns None /\
  (fun b => (to_Z (Number (start_block b)), to_Z (Number (end_block b)),
             to_Z (total_gas_used b), to_Z (total_tx_num b)))
    <$> batches (committed (fst r)) = [(1, 2, 2000000, 2)] /\
  (fun n => block_batch (committed (fst r)) !! n) <$> [1; 2; 3; 4]
  = [Some "batch-1"%string; Some "batch-1"%string; None; None].
Proof. vm_compute. repeat split. Qed.

(** C4 as stated fails: two blocks using 1,000,000 and [2^64 - 1,000,000]
    gas are both selected, because the running [uint64] sum wraps to 0, yet
    their cumulative gas is [2^64], far over the threshold. *)
Lemma accumulate_wraps_around :
  wrapping_blocks <> [] /\
  selected wrapping_blocks = wrapping_blocks /\
  gas_sum (selected wrapping_blocks) = 2 ^ 64 /\
  ~ maximal_gas_prefix (selected wrapping_blocks) wrapping_blocks.
Proof.
  assert (Hsel : selected wrapping_blocks = wrapping_blocks) by (vm_compute; reflexivity).
  assert (Hsum : gas_sum wrapping_blocks = 2 ^ 64) by (vm_compute; reflexivity).
  rewrite Hsel. split; [discriminate|]. split; [reflexivity|]. split; [exact Hsum|].
  intros (_ & Hle & _). rewrite Hsum in Hle. vm_compute in Hle. apply Hle. reflexivity.
Qed.

(** ** Idle deferral and the degenerate-block guard *)

Lemma selected_all_iff_length (blocks : list BlockInfo) :
  (length (selected blocks) =? length blocks)%nat = true <-> selected blocks = blocks.
Proof.
  rewrite Nat.eqb_eq. split; [|by intros ->].
  intros Hlen. apply prefix_length_eq; [apply selected_prefix|lia].
Qed.

Lemma selected_head (block0 : BlockInfo) (rest : list BlockInfo) :
  selected (block0 :: rest) = [] \/
  exists sel, selected (block0 :: rest) = block0 :: sel.
Proof.
  pose proof (selected_prefix (block0 :: rest)) as Hp.
  destruct (selected (block0 :: rest)) as [|b sel]; [by left|right].
  apply prefix_cons_inv_1 in Hp as ->. by exists sel.
Qed.

(** The first block alone decides whether anything is selected. *)
Lemma selected_nil_iff (block0 : BlockInfo) (rest : list BlockInfo) :
  selected (block0 :: rest) = [] <-> 3000000 < to_Z (GasUsed block0).
Proof.
  unfold selected. cbn [accumulate accum_init gasUsed].
  rewrite ltu_to_Z, to_Z_add, to_Z_batchGasThreshold.
  change (to_Z (u64 0)) with 0. rewrite Z.add_0_l.
  rewrite (Z.mod_small _ _ (to_Z_range (GasUsed block0))).
  destruct (Z.ltb_spec 3000000 (to_Z (GasUsed block0))) as [Hlt|Hge].
  - cbn [blocksToBatch]. tauto.
  - split; [|lia]. intros Hnil.
    match type of Hnil with
    | blocksToBatch (accumulate rest ?a) = _ =>
        destruct (accumulate_appends_prefix rest a) as (sel & _ & Hb & _)
    end.
    rewrite Hb in Hnil. discriminate.
Qed.

(** The source's deferral test, read over the integers, when the oldest
    block's timestamp is at most [2^64 - 1 - 300]. *)
Lemma deferral_test_spec (env : Env) (block0 : BlockInfo) (rest : list BlockInfo) :
  to_Z (BlockTimestamp block0) <= 2 ^ 64 - 1 - 300 ->
  (length (blocksToBatch (accumulate (block0 :: rest) accum_init))
     =? length (block0 :: rest))%nat
  && word.ltu (gasUsed (accumulate (block0 :: rest) accum_init)) batchGasThreshold
  && word.ltu (now env) (word.add (BlockTimestamp block0) batchTimeSec) = true
  <-> idle_deferral env block0 rest.
Proof.
  intros Hts. unfold idle_deferral.
  rewrite !andb_true_iff, !ltu_to_Z, to_Z_add, to_Z_batchGasThreshold, to_Z_batchTimeSec.
  pose proof (to_Z_range (BlockTimestamp block0)) as Hr.
  rewrite (Z.mod_small (to_Z (BlockTimestamp block0) + 300)) by lia.
  rewrite !Z.ltb_lt.
  change (blocksToBatch (accumulate (block0 :: rest) accum_init))
    with (selected (block0 :: rest)).
  rewrite selected_all_iff_length. intuition lia.
Qed.

Lemma createBatchForBlocks_returns (env : Env) (blockIDs : list uint64)
    (blocks : list BlockInfo) (parentHash : string) (txNum gasUsed : uint64)
    (s : Store) :
  blocks <> [] ->
  exists s' r,
    createBatchForBlocks env blockIDs blocks parentHash txNum gasUsed s = (s', Returns r).
Proof.
  intros Hne. destruct blocks as [|b l]; [congruence|].
  destruct (last (b :: l)) as [e|] eqn:Hlast; [|by apply last_None in Hlast].
  unfold createBatchForBlocks, Beginx, NewBatchInDBTx, SetBatchIDForBlocksInDBTx, Commit.
  cbn [lookup list_lookup]. rewrite Hlast.
  destruct (Beginx_err env); [eauto|].
  destruct (NewBatchInDBTx_result env); [eauto|].
  destruct (SetBatchIDForBlocksInDBTx_err env); [eauto|].
  destruct (Commit_err env); eauto.
Qed.

(** C5 (as amended): when the oldest fetched block's timestamp is at most
    [2^64 - 1 - 300] (so that adding the 300-second threshold cannot wrap):
    if the accumulation consumed every fetched block, the accumulated gas is
    strictly under 3,000,000 and the oldest block is less than 300 seconds
    older than the clock reading, [tryProposeBatch] returns nil and leaves
    the store untouched; in every other case with a non-empty accumulated
    prefix it proposes exactly that prefix, with its ids, the oldest block's
    parent hash and the accumulated totals. *)
Theorem tryProposeBatch_idle_deferral (env : Env) (s : Store)
    (block0 : BlockInfo) (rest : list BlockInfo) :
  GetUnbatchedBlocks_result env = inr (block0 :: rest) ->
  to_Z (BlockTimestamp block0) <= 2 ^ 64 - 1 - 300 ->
  (idle_deferral env block0 rest -> tryProposeBatch env s = (s, Returns None)) /\
  (~ idle_deferral env block0 rest -> selected (block0 :: rest) <> [] ->
   tryProposeBatch env s =
     createBatchForBlocks env
       (Number <$> selected (block0 :: rest)) (selected (block0 :: rest))
       (ParentHash block0)
       (txNum (accumulate (block0 :: rest) accum_init))
       (gasUsed (accumulate (block0 :: rest) accum_init)) s).
Proof.
  intros Hfetch Hts. pose proof (deferral_test_spec env block0 rest Hts) as Htest.
  unfold tryProposeBatch. rewrite Hfetch.
  split.
  - intros Hidle. apply Htest in Hidle. rewrite Hidle. reflexivity.
  - intros Hnot Hne.
    destruct (_ && _ && _) eqn:Hc; [exfalso; apply Hnot, Htest; reflexivity|].
    rewrite selected_ids. fold (selected (block0 :: rest)).
    destruct (selected_head block0 rest) as [Hnil|[sel Hsel]]; [congruence|].
    rewrite Hsel. reflexivity.
Qed.

(** The theorem on a single block stamped 100 seconds before the clock. *)
Lemma tryProposeBatch_idle_deferral_witness :
  GetUnbatchedBlocks_result (healthy_env [fresh_block] 1700000100) = inr [fresh_block] /\
  to_Z (BlockTimestamp fresh_block) <= 2 ^ 64 - 1 - 300 /\
  (idle_deferral (healthy_env [fresh_block] 1700000100) fresh_block [] ->
   tryProposeBatch (healthy_env [fresh_block] 1700000100) empty_store
   = (empty_store, Returns None)) /\
  (~ idle_deferral (healthy_env [fresh_block] 1700000100) fresh_block [] ->
   selected [fresh_block] <> [] ->
   tryProposeBatch (healthy_env [fresh_block] 1700000100) empty_store =
     createBatchForBlocks (healthy_env [fresh_block] 1700000100)
       (Number <$> selected [fresh_block]) (selected [fresh_block])
       (ParentHash fresh_block)
       (txNum (accumulate [fresh_block] accum_init))
       (gasUsed (accumulate [fresh_block] accum_init)) empty_store).
Proof.
  split; [reflexivity|]. split; [vm_compute; discriminate|].
  apply (tryProposeBatch_idle_deferral (healthy_env [fresh_block] 1700000100)
           empty_store fresh_block []).
  - reflexivity.
  - vm_compute; discriminate.
Defined.

(** A single fresh block under the threshold is a no-op ... *)
Lemma single_fresh_block_is_noop :
  idle_deferral (healthy_env [fresh_block] 1700000299) fresh_block [] /\
  tryProposeBatch (healthy_env [fresh_block] 1700000299) empty_store
  = (empty_store, Returns None).
Proof. split; [|vm_compute; reflexivity]. repeat split; vm_compute; reflexivity. Qed.

(** ... and once 300 seconds have elapsed the same block is proposed. *)
Lemma single_block_proposed_after_5min :
  let r := tryProposeBatch (healthy_env [fresh_block] 1700000300) empty_store in
  snd r = Returns None /\
  batch_id <$> batches (committed (fst r)) = ["batch-1"%string] /\
  block_batch (committed (fst r)) !! 1 = Some "batch-1"%string.
Proof. vm_compute. repeat split. Qed.

(** C5 as stated fails: a block that is 100 seconds old, but whose
    timestamp is [2^64 - 200], satisfies the deferral condition, and yet
    [tryProposeBatch] proposes it, because [BlockTimestamp + batchTimeSec]
    wraps around to 100. *)
Lemma idle_deferral_wraps_around :
  GetUnbatchedBlocks_result late_env = inr [late_block] /\
  idle_deferral late_env late_block [] /\
  tryProposeBatch late_env empty_store <> (empty_store, Returns None) /\
  batch_id <$> batches (committed (fst (tryProposeBatch late_env empty_store)))
  = ["batch-1"%string].
Proof.
  split; [reflexivity|]. split; [repeat split; vm_compute; reflexivity|].
  split; [|vm_compute; reflexivity].
  intros H. apply (f_equal (fun r => calls (fst r))) in H.
  vm_compute in H. discriminate H.
Qed.

(** C7: whenever the fetched list is non-empty and its first (oldest) block
    alone uses more than 3,000,000 gas, the accumulation selects no block
    and [tryProposeBatch] panics with the "gas overflow" message, leaving
    the store untouched; conversely [tryProposeBatch] panics exactly when
    blocks were fetched and the accumulated prefix is empty, which is
    exactly when the first block's gas exceeds the threshold; and in that
    situation the idle-deferral test, which the source evaluates first,
    is false (the prefix length differs from the fetched length). *)
Theorem tryProposeBatch_panics_on_oversized_block (env : Env) (s : Store) :
  (forall block0 rest,
     GetUnbatchedBlocks_result env = inr (block0 :: rest) ->
     3000000 < to_Z (GasUsed block0) ->
     selected (block0 :: rest) = [] /\
     tryProposeBatch env s
     = (s, Panics (String.append "gas overflow even for only 1 block. gas: "
                     (fmt_d (to_Z (GasUsed block0)))))) /\
  ((exists s' v, tryProposeBatch env s = (s', Panics v)) <->
   (exists blocks, GetUnbatchedBlocks_result env = inr blocks /\
                   blocks <> [] /\ selected blocks = [])) /\
  (forall block0 rest,
     selected (block0 :: rest) = [] <-> 3000000 < to_Z (GasUsed block0)) /\
  (forall blocks,
     blocks <> [] -> selected blocks = [] ->
     (length (selected blocks) =? length blocks)%nat = false).
Proof.
  assert (Hlen : forall blocks, blocks <> [] -> selected blocks = [] ->
                   (length (selected blocks) =? length blocks)%nat = false).
  { intros blocks Hne Hnil. rewrite Hnil. destruct blocks; [congruence|reflexivity]. }
  assert (Hpanic : forall block0 rest,
             GetUnbatchedBlocks_result env = inr (block0 :: rest) ->
             selected (block0 :: rest) = [] ->
             tryProposeBatch env s
             = (s, Panics (String.append "gas overflow even for only 1 block. gas: "
                             (fmt_d (to_Z (GasUsed block0)))))).
  { intros block0 rest Hfetch Hnil. unfold tryProposeBatch. rewrite Hfetch.
    fold (selected (block0 :: rest)).
    rewrite (Hlen (block0 :: rest)) by (congruence || exact Hnil).
    cbn [andb]. rewrite Hnil. reflexivity. }
  split; [|split; [|split]].
  - intros block0 rest Hfetch Hgas.
    apply (proj2 (selected_nil_iff block0 rest)) in Hgas.
    split; [exact Hgas|exact (Hpanic block0 rest Hfetch Hgas)].
  - split.
    + intros (s' & v & Hrun). unfold tryProposeBatch in Hrun.
      destruct (GetUnbatchedBlocks_result env) as [err|blocks]; [discriminate|].
      exists blocks. split; [reflexivity|].
      destruct blocks as [|block0 rest]; [discriminate|]. split; [discriminate|].
      destruct (_ && _ && _); [discriminate|].
      fold (selected (block0 :: rest)) in Hrun.
      destruct (selected (block0 :: rest)) as [|first sel] eqn:Hsel; [reflexivity|].
      exfalso.
      match type of Hrun with
      | createBatchForBlocks ?e ?i ?b ?p ?t ?g ?st = _ =>
          destruct (createBatchForBlocks_returns e i b p t g st) as (s1 & r & Hret);
            [discriminate|]
      end.
      rewrite Hret in Hrun. discriminate.
    + intros (blocks & Hfetch & Hne & Hnil).
      destruct blocks as [|block0 rest]; [congruence|].
      eexists _, _. exact (Hpanic block0 rest Hfetch Hnil).
  - apply selected_nil_iff.
  - exact Hlen.
Qed.

(** A single block of 3,000,001 gas panics rather than returning. *)
Lemma oversized_block_panics :
  tryProposeBatch (healthy_env [oversized_block] 1700000000) empty_store
  = (empty_store, Panics "gas overflow even for only 1 block. gas: 3000001"%string).
Proof. vm_compute. reflexivity. Qed.

(** ** The commit transaction *)

(** Closes the failure cases in which [Rollback] ran. *)
Ltac rolled_back :=
  cbn; split; [reflexivity|]; right; split; [reflexivity|]; split;
  [ rewrite <- !app_assoc, drop_app_length; set_solver
  | intros; (reflexivity || discriminate) ].


(** C6: called on a non-empty prefix, [createBatchForBlocks] returns the
    error of the first store operation that fails ([Beginx], either write,
    or [Commit]), and nil when none does.  When none fails, the committed
    state gains the batch row spanning the first and last block together
    with the batch id of every listed block, by one [Commit].  When one
    fails, the committed state is unchanged (no batch row, no assignment),
    and if the transaction had been begun [Rollback] is called on it; a
    rollback that succeeds leaves no open transaction. *)
Theorem createBatchForBlocks_atomic (env : Env) (blockIDs : list uint64)
    (blocks : list BlockInfo) (parentHash : string) (txNum gasUsed : uint64)
    (s : Store) :
  blocks <> [] ->
  exists s' startBlock endBlock,
    createBatchForBlocks env blockIDs blocks parentHash txNum gasUsed s
    = (s', Returns (first_failure env)) /\
    blocks !! 0%nat = Some startBlock /\ last blocks = Some endBlock /\
    match first_failure env with
    | None =>
        exists id,
          NewBatchInDBTx_result env = inr id /\
          committed s' = with_batch (committed s) id blockIDs startBlock endBlock
                           parentHash txNum gasUsed /\
          pending s' = None /\
          calls s' = calls s ++ [CBeginx; CNewBatchInDBTx;
                                 CSetBatchIDForBlocksInDBTx; CCommit]
    | Some err =>
        committed s' = committed s /\
        (Beginx_err env = Some err /\ calls s' = calls s ++ [CBeginx] /\
         pending s' = pending s
         \/
         Beginx_err env = None /\
         CRollback ∈ drop (length (calls s)) (calls s') /\
         (Rollback_err env = None -> pending s' = None))
    end.
Proof.
  intros Hne. destruct blocks as [|b l]; [congruence|].
  destruct (last (b :: l)) as [e|] eqn:Hlast; [|by apply last_None in Hlast].
  unfold createBatchForBlocks, first_failure, Beginx, NewBatchInDBTx,
    SetBatchIDForBlocksInDBTx, Commit, deferred_rollback, Rollback, logged, tx_write.
  cbn [lookup list_lookup]. rewrite Hlast.
  destruct (Beginx_err env) as [e0|] eqn:Hbegin.
  { eexists _, b, e. do 3 (split; [reflexivity|]). cbn.
    split; [reflexivity|]. left. auto. }
  destruct (NewBatchInDBTx_result env) as [e1|id] eqn:Hnew.
  { destruct (Rollback_err env); eexists _, b, e;
      (do 3 (split; [reflexivity|])); rolled_back. }
  destruct (SetBatchIDForBlocksInDBTx_err env) as [e2|] eqn:Hset.
  { destruct (Rollback_err env); eexists _, b, e;
      (do 3 (split; [reflexivity|])); rolled_back. }
  destruct (Commit_err env) as [e3|] eqn:Hcommit.
  { destruct (Rollback_err env); eexists _, b, e;
      (do 3 (split; [reflexivity|])); rolled_back. }
  eexists _, b, e. do 3 (split; [reflexivity|]). exists id. cbn.
  do 3 (split; [reflexivity|]). rewrite <- !app_assoc. reflexivity.
Qed.

(** The theorem when the assignment of the batch id fails. *)
Lemma createBatchForBlocks_atomic_witness :
  [fresh_block] <> [] /\
  exists s' startBlock endBlock,
    createBatchForBlocks (failing_env [fresh_block] CSetBatchIDForBlocksInDBTx)
      [Number fresh_block] [fresh_block] (ParentHash fresh_block)
      (TxNum fresh_block) (GasUsed fresh_block) empty_store
    = (s', Returns (first_failure (failing_env [fresh_block] CSetBatchIDForBlocksInDBTx))) /\
    [fresh_block] !! 0%nat = Some startBlock /\ last [fresh_block] = Some endBlock /\
    match first_failure (failing_env [fresh_block] CSetBatchIDForBlocksInDBTx) with
    | None =>
        exists id,
          NewBatchInDBTx_result (failing_env [fresh_block] CSetBatchIDForBlocksInDBTx)
          = inr id /\
          committed s' = with_batch (committed empty_store) id [Number fresh_block]
                           startBlock endBlock (ParentHash fresh_block)
                           (TxNum fresh_block) (GasUsed fresh_block) /\
          pending s' = None /\
          calls s' = calls empty_store ++ [CBeginx; CNewBatchInDBTx;
                                           CSetBatchIDForBlocksInDBTx; CCommit]
    | Some err =>
        committed s' = committed empty_store /\
        (Beginx_err (failing_env [fresh_block] CSetBatchIDForBlocksInDBTx) = Some err /\
         calls s' = calls empty_store ++ [CBeginx] /\
         pending s' = pending empty_store
         \/
         Beginx_err (failing_env [fresh_block] CSetBatchIDForBlocksInDBTx) = None /\
         CRollback ∈ drop (length (calls empty_store)) (calls s') /\
         (Rollback_err (failing_env [fresh_block] CSetBatchIDForBlocksInDBTx) = None ->
          pending s' = None))
    end.
Proof.
  split; [discriminate|].
  apply (createBatchForBlocks_atomic
           (failing_env [fresh_block] CSetBatchIDForBlocksInDBTx)
           [Number fresh_block] [fresh_block] (ParentHash fresh_block)
           (TxNum fresh_block) (GasUsed fresh_block) empty_store).
  discriminate.
Defined.


(** Whichever store operation fails, nothing is committed, and every
    failure after [Beginx] is followed by [Rollback]. *)
Lemma createBatchForBlocks_failures :
  let run broken :=
    createBatchForBlocks (failing_env [fresh_block] broken)
      [Number fresh_block] [fresh_block] (ParentHash fresh_block)
      (TxNum fresh_block) (GasUsed fresh_block) empty_store in
  (snd (run CBeginx) = Returns (Some "begin failed"%string) /\
   committed (fst (run CBeginx)) = committed empty_store /\
   calls (fst (run CBeginx)) = [CBeginx]) /\
  (snd (run CNewBatchInDBTx) = Returns (Some "insert failed"%string) /\
   committed (fst (run CNewBatchInDBTx)) = committed empty_store /\
   calls (fst (run CNewBatchInDBTx)) = [CBeginx; CNewBatchInDBTx; CRollback]) /\
  (snd (run CSetBatchIDForBlocksInDBTx) = Returns (Some "update failed"%string) /\
   committed (fst (run CSetBatchIDForBlocksInDBTx)) = committed empty_store /\
   calls (fst (run CSetBatchIDForBlocksInDBTx))
   = [CBeginx; CNewBatchInDBTx; CSetBatchIDForBlocksInDBTx; CRollback]) /\
  (snd (run CCommit) = Returns (Some "commit failed"%string) /\
   committed (fst (run CCommit)) = committed empty_store /\
   calls (fst (run CCommit))
   = [CBeginx; CNewBatchInDBTx; CSetBatchIDForBlocksInDBTx; CCommit; CRollback]).
Proof. repeat split. Qed.

(** When nothing fails the batch row and the assignment are committed
    together. *)
Lemma createBatchForBlocks_success :
  let r := createBatchForBlocks (healthy_env [fresh_block] 1700000300)
             [Number fresh_block] [fresh_block] (ParentHash fresh_block)
             (TxNum fresh_block) (GasUsed fresh_block) empty_store in
  snd r = Returns None /\
  batch_id <$> batches (committed (fst r)) = ["batch-1"%string] /\
  block_batch (committed (fst r)) !! 1 = Some "batch-1"%string /\
  calls (fst r) = [CBeginx; CNewBatchInDBTx; CSetBatchIDForBlocksInDBTx; CCommit].
Proof. vm_compute. repeat split. Qed.

End L2Proofs.

(** * Further properties of the batch proposer *)
Module L2Further.
Import L2 L2Proofs.

(** ** The totals of a batch *)

Lemma tx_sum_cons (b : BlockInfo) (l : list BlockInfo) :
  tx_sum (b :: l) = to_Z (TxNum b) + tx_sum l.
Proof. reflexivity. Qed.

Lemma accumulate_totals (blocks : list BlockInfo) :
  forall a,
    to_Z (gasUsed a) <= 3000000 ->
    exists sel,
      blocksToBatch (accumulate blocks a) = blocksToBatch a ++ sel /\
      to_Z (gasUsed (accumulate blocks a)) = (to_Z (gasUsed a) + gas_sum sel) mod 2 ^ 64 /\
      to_Z (txNum (accumulate blocks a)) = (to_Z (txNum a) + tx_sum sel) mod 2 ^ 64 /\
      to_Z (gasUsed (accumulate blocks a)) <= 3000000.
Proof.
  induction blocks as [|block rest IH]; intros a Ha.
  - exists []. cbn [accumulate gas_sum tx_sum foldr].
    rewrite app_nil_r, !Z.add_0_r, !Z.mod_small by apply to_Z_range. auto.
  - cbn [accumulate]. rewrite ltu_to_Z, to_Z_batchGasThreshold.
    destruct (3000000 <? to_Z (word.add (gasUsed a) (GasUsed block))) eqn:Hover.
    + exists []. cbn [gas_sum tx_sum foldr].
      rewrite app_nil_r, !Z.add_0_r, !Z.mod_small by apply to_Z_range. auto.
    + apply Z.ltb_ge in Hover.
      destruct (IH {| idsToBatch := idsToBatch a ++ [Number block];
                      blocksToBatch := blocksToBatch a ++ [block];
                      txNum := word.add (txNum a) (TxNum block);
                      gasUsed := word.add (gasUsed a) (GasUsed block) |} Hover)
        as (sel & Hb & Hg & Ht & Hle).
      cbn [blocksToBatch gasUsed txNum] in Hb, Hg, Ht.
      exists (block :: sel). split; [by rewrite Hb, <- app_assoc|].
      split; [rewrite Hg, to_Z_add, gas_sum_cons, Z.add_mod_idemp_l, Z.add_assoc by lia;
              reflexivity|].
      split; [rewrite Ht, to_Z_add, tx_sum_cons, Z.add_mod_idemp_l, Z.add_assoc by lia;
              reflexivity|].
      exact Hle.
Qed.

(** X1: the totals a batch is created with are the sums over the selected
    blocks of [TxNum] and [GasUsed], as [uint64] values: reduced modulo
    [2^64].  The gas total is never above the threshold, and the
    transaction total is the exact sum whenever that sum fits 64 bits. *)
Theorem batch_totals_are_wrapped_sums (blocks : list BlockInfo) :
  to_Z (gasUsed (accumulate blocks accum_init)) = gas_sum (selected blocks) mod 2 ^ 64 /\
  to_Z (txNum (accumulate blocks accum_init)) = tx_sum (selected blocks) mod 2 ^ 64 /\
  to_Z (gasUsed (accumulate blocks accum_init)) <= 3000000 /\
  (tx_sum (selected blocks) < 2 ^ 64 ->
   to_Z (txNum (accumulate blocks accum_init)) = tx_sum (selected blocks)).
Proof.
  destruct (accumulate_totals blocks accum_init) as (sel & Hb & Hg & Ht & Hle).
  { vm_compute. discriminate. }
  unfold selected. rewrite Hb. cbn [accum_init blocksToBatch app].
  replace (to_Z (gasUsed accum_init)) with 0 in Hg by reflexivity.
  replace (to_Z (txNum accum_init)) with 0 in Ht by reflexivity.
  rewrite Z.add_0_l in Hg, Ht.
  split; [exact Hg|]. split; [exact Ht|]. split; [exact Hle|].
  intros Hfit. rewrite Ht. apply Z.mod_small. split; [|exact Hfit].
  clear. induction sel as [|b l IH]; [reflexivity|].
  rewrite tx_sum_cons. pose proof (to_Z_range (TxNum b)). lia.
Qed.

(** ** What a proposal writes *)

Lemma assign_all_lookup (ids : list uint64) (id : string) (m : gmap Z string) (n : Z) :
  assign_all ids id m !! n = if bool_decide (n ∈ to_Z <$> ids) then Some id else m !! n.
Proof.
  induction ids as [|i ids IH]; cbn [assign_all foldr fmap list_fmap].
  - rewrite bool_decide_eq_false_2 by apply not_elem_of_nil. reflexivity.
  - fold (assign_all ids id m). fold (to_Z <$> ids).
    destruct (decide (n = to_Z i)) as [->|Hne].
    + rewrite lookup_insert_eq, bool_decide_eq_true_2 by (apply elem_of_cons; by left).
      reflexivity.
    + rewrite lookup_insert_ne, IH by congruence.
      apply (f_equal (fun b : bool => if b then Some id else m !! n)).
      apply bool_decide_ext. rewrite elem_of_cons. tauto.
Qed.

(** One call on a non-empty slice: the first failure is returned and
    nothing is committed, or the batch row and the assignments are. *)
Lemma createBatchForBlocks_outcome (env : Env) (blockIDs : list uint64)
    (block0 : BlockInfo) (rest : list BlockInfo) (parentHash : string)
    (txNum gasUsed : uint64) (s : Store) :
  exists s',
    createBatchForBlocks env blockIDs (block0 :: rest) parentHash txNum gasUsed s
    = (s', Returns (first_failure env)) /\
    match first_failure env with
    | Some _ =>
        committed s' = committed s /\
        (Beginx_err env = None -> Rollback_err env = None -> pending s' = None) /\
        (Beginx_err env <> None -> pending s' = pending s)
    | None =>
        exists id endBlock,
          NewBatchInDBTx_result env = inr id /\
          last (block0 :: rest) = Some endBlock /\
          committed s' = with_batch (committed s) id blockIDs block0 endBlock
                           parentHash txNum gasUsed /\
          pending s' = None
    end.
Proof.
  destruct (last (block0 :: rest)) as [e|] eqn:Hlast; [|by apply last_None in Hlast].
  unfold createBatchForBlocks, first_failure, Beginx, NewBatchInDBTx,
    SetBatchIDForBlocksInDBTx, Commit, deferred_rollback, Rollback, logged, tx_write.
  cbn [lookup list_lookup]. rewrite Hlast.
  destruct (Beginx_err env); [eexists; split; [reflexivity|]; cbn; by auto|].
  destruct (NewBatchInDBTx_result env) as [e1|id];
    [destruct (Rollback_err env); eexists; (split; [reflexivity|]); cbn; by auto|].
  destruct (SetBatchIDForBlocksInDBTx_err env);
    [destruct (Rollback_err env); eexists; (split; [reflexivity|]); cbn; by auto|].
  destruct (Commit_err env);
    [destruct (Rollback_err env); eexists; (split; [reflexivity|]); cbn; by auto|].
  eexists. split; [reflexivity|]. by exists id, e.
Qed.

(** X2: a proposal changes the committed state in one way only: it returns
    nil having appended one batch row, which starts at the oldest fetched
    block, ends at the last selected one and carries the id the store
    generated, and it gives that id to the numbers of the selected blocks;
    the assignment of every other block number is what it was. *)
Theorem tryProposeBatch_commit_contents (env : Env) (s : Store) :
  committed (fst (tryProposeBatch env s)) = committed s \/
  exists block0 rest endBlock id,
    GetUnbatchedBlocks_result env = inr (block0 :: rest) /\
    NewBatchInDBTx_result env = inr id /\
    snd (tryProposeBatch env s) = Returns None /\
    last (selected (block0 :: rest)) = Some endBlock /\
    batches (committed (fst (tryProposeBatch env s)))
    = batches (committed s) ++
        [{| batch_id := id; start_block := block0; end_block := endBlock;
            parent_hash := ParentHash block0;
            total_tx_num := txNum (accumulate (block0 :: rest) accum_init);
            total_gas_used := gasUsed (accumulate (block0 :: rest) accum_init) |}] /\
    forall n,
      block_batch (committed (fst (tryProposeBatch env s))) !! n
      = if bool_decide (n ∈ numbers (selected (block0 :: rest)))
        then Some id
        else block_batch (committed s) !! n.
Proof.
  unfold tryProposeBatch.
  destruct (GetUnbatchedBlocks_result env) as [err|blocks] eqn:Hfetch; [by left|].
  destruct blocks as [|block0 rest]; [by left|].
  destruct (_ && _ && _); [by left|].
  fold (selected (block0 :: rest)). rewrite selected_ids.
  destruct (selected_head block0 rest) as [Hnil|(sel & Hsel)]; rewrite ?Hnil, ?Hsel;
    [by left|].
  match goal with
  | |- context [createBatchForBlocks ?e ?i (block0 :: sel) ?p ?t ?g ?st] =>
      destruct (createBatchForBlocks_outcome e i block0 sel p t g st)
        as (s' & Hrun & Hcase);
      rewrite Hrun
  end.
  cbn [fst snd]. destruct (first_failure env) as [err|]; [left; apply Hcase|].
  right. destruct Hcase as (id & endBlock & Hid & Hend & Hcommitted & _).
  exists block0, rest, endBlock, id. rewrite Hcommitted. cbn [with_batch batches block_batch].
  split; [reflexivity|]. split; [exact Hid|]. split; [reflexivity|].
  split; [rewrite Hsel; exact Hend|].
  split; [reflexivity|]. intros n. rewrite assign_all_lookup, Hsel.
  unfold numbers. rewrite <- list_fmap_compose. reflexivity.
Qed.

(** ** Failed attempts and retries *)




(** ** When a batch is proposed *)

(** X4: the clock is consulted only for a selection that took every fetched
    block and stayed under the threshold.  When the loop stopped before the
    end of the fetched list, or gathered exactly 3,000,000 gas, the
    selected prefix is proposed at once, whatever the age of its blocks. *)
Theorem full_batch_is_proposed_at_once (env : Env) (s : Store)
    (block0 : BlockInfo) (rest : list BlockInfo) :
  GetUnbatchedBlocks_result env = inr (block0 :: rest) ->
  to_Z (GasUsed block0) <= 3000000 ->
  selected (block0 :: rest) <> block0 :: rest \/
  to_Z (gasUsed (accumulate (block0 :: rest) accum_init)) = 3000000 ->
  tryProposeBatch env s =
    createBatchForBlocks env
      (Number <$> selected (block0 :: rest)) (selected (block0 :: rest))
      (ParentHash block0)
      (txNum (accumulate (block0 :: rest) accum_init))
      (gasUsed (accumulate (block0 :: rest) accum_init)) s.
Proof.
  intros Hfetch Hgas Hfull. unfold tryProposeBatch. rewrite Hfetch.
  fold (selected (block0 :: rest)). rewrite selected_ids.
  assert (Htest :
    (length (selected (block0 :: rest)) =? length (block0 :: rest))%nat
    && word.ltu (gasUsed (accumulate (block0 :: rest) accum_init)) batchGasThreshold
    && word.ltu (now env) (word.add (BlockTimestamp block0) batchTimeSec) = false).
  { destruct Hfull as [Hpart|Hexact].
    - destruct (length (selected (block0 :: rest)) =? length (block0 :: rest))%nat eqn:Hlen;
        [|reflexivity].
      apply selected_all_iff_length in Hlen. contradiction.
    - rewrite (ltu_to_Z (gasUsed _)), to_Z_batchGasThreshold, Hexact.
      rewrite Z.ltb_irrefl, andb_false_r. reflexivity. }
  rewrite Htest.
  destruct (selected_head block0 rest) as [Hnil|(sel & Hsel)].
  - apply selected_nil_iff in Hnil. lia.
  - rewrite Hsel. reflexivity.
Qed.

(** The theorem on the four numbered blocks ten seconds after the first
    one was stamped: the third block does not fit, so the first two are
    proposed although they are fresh. *)
Lemma full_batch_is_proposed_at_once_witness :
  let env := healthy_env numbered_blocks 1600000010 in
  tryProposeBatch env empty_store =
    createBatchForBlocks env
      (Number <$> selected numbered_blocks) (selected numbered_blocks)
      (ParentHash (block_at 1 1000000 1600000000))
      (txNum (accumulate numbered_blocks accum_init))
      (gasUsed (accumulate numbered_blocks accum_init)) empty_store.
Proof.
  apply (full_batch_is_proposed_at_once (healthy_env numbered_blocks 1600000010)
           empty_store (block_at 1 1000000 1600000000)
           [block_at 2 1000000 1600000003; block_at 3 1500000 1600000006;
            block_at 4 500000 1600000009]).
  - reflexivity.
  - vm_compute. discriminate.
  - left. intros H. apply (f_equal length) in H. vm_compute in H. discriminate.
Defined.

(** X5: no block waits longer than the time threshold: when the oldest
    fetched block is at least 300 seconds older than the clock reading and
    fits a batch alone, and the store works, the invocation commits a batch
    that starts at that block and assigns the block to it. *)
Theorem old_block_is_batched (env : Env) (s : Store)
    (block0 : BlockInfo) (rest : list BlockInfo) :
  GetUnbatchedBlocks_result env = inr (block0 :: rest) ->
  to_Z (GasUsed block0) <= 3000000 ->
  to_Z (BlockTimestamp block0) + 300 <= to_Z (now env) ->
  first_failure env = None ->
  exists id b,
    NewBatchInDBTx_result env = inr id /\
    snd (tryProposeBatch env s) = Returns None /\
    block_batch (committed (fst (tryProposeBatch env s))) !! to_Z (Number block0) = Some id /\
    last (batches (committed (fst (tryProposeBatch env s)))) = Some b /\
    batch_id b = id /\ start_block b = block0.
Proof.
  intros Hfetch Hgas Hold Hhealthy. unfold tryProposeBatch. rewrite Hfetch.
  assert (Htest : word.ltu (now env) (word.add (BlockTimestamp block0) batchTimeSec) = false).
  { rewrite ltu_to_Z, to_Z_add, to_Z_batchTimeSec.
    pose proof (to_Z_range (now env)). pose proof (to_Z_range (BlockTimestamp block0)).
    rewrite Z.mod_small by lia. apply Z.ltb_ge. exact Hold. }
  rewrite Htest, andb_false_r.
  fold (selected (block0 :: rest)). rewrite selected_ids.
  destruct (selected_head block0 rest) as [Hnil|(sel & Hsel)].
  { apply selected_nil_iff in Hnil. lia. }
  rewrite Hsel.
  match goal with
  | |- context [createBatchForBlocks ?e ?i (block0 :: sel) ?p ?t ?g ?st] =>
      destruct (createBatchForBlocks_outcome e i block0 sel p t g st)
        as (s' & Hrun & Hcase);
      rewrite Hrun
  end.
  rewrite Hhealthy in Hcase |- *.
  destruct Hcase as (id & endBlock & Hid & Hend & Hcommitted & _).
  eexists id, _. cbn [fst snd]. rewrite Hcommitted. cbn [with_batch batches block_batch].
  split; [exact Hid|]. split; [reflexivity|].
  split; [|split; [apply last_snoc|split; reflexivity]].
  rewrite assign_all_lookup, bool_decide_eq_true_2; [reflexivity|].
  rewrite !fmap_cons. apply elem_of_cons. by left.
Qed.

(** The theorem on a single block that is exactly 300 seconds old. *)
Lemma old_block_is_batched_witness :
  exists id b,
    NewBatchInDBTx_result (healthy_env [fresh_block] 1700000300) = inr id /\
    snd (tryProposeBatch (healthy_env [fresh_block] 1700000300) empty_store)
    = Returns None /\
    block_batch (committed (fst (tryProposeBatch (healthy_env [fresh_block] 1700000300)
                                  empty_store)))
      !! to_Z (Number fresh_block) = Some id /\
    last (batches (committed (fst (tryProposeBatch (healthy_env [fresh_block] 1700000300)
                                     empty_store)))) = Some b /\
    batch_id b = id /\ start_block b = fresh_block.
Proof.
  apply (old_block_is_batched (healthy_env [fresh_block] 1700000300) empty_store
           fresh_block []).
  - reflexivity.
  - vm_compute. discriminate.
  - vm_compute. discriminate.
  - reflexivity.
Defined.

(** ** The transaction an invocation opens *)

(** X6: an invocation that found no transaction open leaves none open: the
    one it begins is ended by [Commit], or by [Rollback] after a failure.
    Only a [Rollback] that itself fails can leave it open. *)
Theorem tryProposeBatch_closes_its_transaction (env : Env) (s : Store) :
  pending s = None ->
  first_failure env = None \/ Rollback_err env = None ->
  pending (fst (tryProposeBatch env s)) = None.
Proof.
  intros Hclosed Hok. unfold tryProposeBatch.
  destruct (GetUnbatchedBlocks_result env) as [err|blocks]; [exact Hclosed|].
  destruct blocks as [|block0 rest]; [exact Hclosed|].
  destruct (_ && _ && _); [exact Hclosed|].
  destruct (blocksToBatch (accumulate (block0 :: rest) accum_init)) as [|first sel];
    [exact Hclosed|].
  match goal with
  | |- context [createBatchForBlocks ?e ?i (first :: sel) ?p ?t ?g ?st] =>
      destruct (createBatchForBlocks_outcome e i first sel p t g st)
        as (s' & Hrun & Hcase);
      rewrite Hrun
  end.
  cbn [fst]. destruct (first_failure env) as [err|].
  - destruct Hok as [Hok|Hok]; [discriminate|].
    destruct Hcase as (_ & Hbegun & Hnot).
    destruct (Beginx_err env) as [e|] eqn:Hbegin.
    + rewrite Hnot by discriminate. exact Hclosed.
    + apply Hbegun; [reflexivity|exact Hok].
  - destruct Hcase as (id & e & _ & _ & _ & Hp). exact Hp.
Qed.

(** The theorem when the insertion of the batch row fails. *)
Lemma tryProposeBatch_closes_its_transaction_witness :
  pending (fst (tryProposeBatch (failing_env numbered_blocks CNewBatchInDBTx) empty_store))
  = None.
Proof.
  apply (tryProposeBatch_closes_its_transaction
           (failing_env numbered_blocks CNewBatchInDBTx) empty_store).
  - reflexivity.
  - right. reflexivity.
Defined.

Ltac trace_cases :=
  unfold new_calls; cbn [calls fst snd];
  repeat rewrite <- app_assoc; rewrite drop_app_length; cbn [app];
  rewrite ?elem_of_cons, ?elem_of_nil;
  repeat split; intros;
  repeat match goal with
         | H : _ \/ _ |- _ => destruct H
         | H : _ /\ _ |- _ => destruct H
         | H : exists _, _ |- _ => destruct H
         | H : False |- _ => destruct H
         end;
  try discriminate; try congruence; eauto 10.

(** X7: the calls [createBatchForBlocks] makes on a non-empty slice: [Beginx]
    first; [Commit] exactly when both writes succeeded; [Rollback] exactly
    when an operation after [Beginx] failed, so never after a successful
    [Commit]; and a failure of [Rollback] is only logged - the caller gets
    the error that caused the rollback. *)
Theorem createBatchForBlocks_call_discipline (env : Env) (blockIDs : list uint64)
    (blocks : list BlockInfo) (parentHash : string) (txNum gasUsed : uint64)
    (s : Store) :
  blocks <> [] ->
  let r := createBatchForBlocks env blockIDs blocks parentHash txNum gasUsed s in
  head (new_calls s (fst r)) = Some CBeginx /\
  (CCommit ∈ new_calls s (fst r) <->
   Beginx_err env = None /\ (exists id, NewBatchInDBTx_result env = inr id) /\
   SetBatchIDForBlocksInDBTx_err env = None) /\
  (CRollback ∈ new_calls s (fst r) <->
   Beginx_err env = None /\ first_failure env <> None) /\
  (CLogError "dbTx.Rollback()" ∈ new_calls s (fst r) <->
   Beginx_err env = None /\ first_failure env <> None /\ Rollback_err env <> None) /\
  snd r = Returns (first_failure env).
Proof.
  intros Hne. destruct blocks as [|b l]; [congruence|].
  destruct (last (b :: l)) as [e|] eqn:Hlast; [|by apply last_None in Hlast].
  unfold createBatchForBlocks, first_failure, Beginx, NewBatchInDBTx,
    SetBatchIDForBlocksInDBTx, Commit, deferred_rollback, Rollback, logged, tx_write.
  cbn [lookup list_lookup]. rewrite Hlast.
  destruct (Beginx_err env) as [e0|]; [trace_cases|].
  destruct (NewBatchInDBTx_result env) as [e1|id];
    [destruct (Rollback_err env); trace_cases|].
  destruct (SetBatchIDForBlocksInDBTx_err env) as [e2|];
    [destruct (Rollback_err env); trace_cases|].
  destruct (Commit_err env) as [e3|];
    [destruct (Rollback_err env); trace_cases|].
  trace_cases.
Qed.

(** The theorem when [Commit] fails and the rollback works. *)
Lemma createBatchForBlocks_call_discipline_witness :
  let env := failing_env [fresh_block] CCommit in
  let r := createBatchForBlocks env [Number fresh_block] [fresh_block]
             (ParentHash fresh_block) (TxNum fresh_block) (GasUsed fresh_block)
             empty_store in
  head (new_calls empty_store (fst r)) = Some CBeginx /\
  (CCommit ∈ new_calls empty_store (fst r) <->
   Beginx_err env = None /\ (exists id, NewBatchInDBTx_result env = inr id) /\
   SetBatchIDForBlocksInDBTx_err env = None) /\
  (CRollback ∈ new_calls empty_store (fst r) <->
   Beginx_err env = None /\ first_failure env <> None) /\
  (CLogError "dbTx.Rollback()" ∈ new_calls empty_store (fst r) <->
   Beginx_err env = None /\ first_failure env <> None /\ Rollback_err env <> None) /\
  snd r = Returns (first_failure env).
Proof.
  apply (createBatchForBlocks_call_discipline (failing_env [fresh_block] CCommit)
           [Number fresh_block] [fresh_block] (ParentHash fresh_block)
           (TxNum fresh_block) (GasUsed fresh_block) empty_store).
  discriminate.
Defined.

(** X8: [createBatchForBlocks] panics exactly on an empty slice once the
    transaction has been begun ([blocks[0]] is out of range).  The deferred
    function then sees no error, so the transaction is neither committed
    nor rolled back: it is left open with nothing written. *)
Theorem createBatchForBlocks_empty_slice (env : Env) (blockIDs : list uint64)
    (blocks : list BlockInfo) (parentHash : string) (txNum gasUsed : uint64)
    (s : Store) :
  ((exists s' v,
      createBatchForBlocks env blockIDs blocks parentHash txNum gasUsed s = (s', Panics v))
   <-> blocks = [] /\ Beginx_err env = None) /\
  (blocks = [] -> Beginx_err env = None ->
   exists s',
     createBatchForBlocks env blockIDs blocks parentHash txNum gasUsed s
     = (s', Panics "runtime error: index out of range [0] with length 0"%string) /\
     committed s' = committed s /\ pending s' = Some [] /\
     new_calls s s' = [CBeginx]) /\
  (forall err, blocks = [] -> Beginx_err env = Some err ->
   snd (createBatchForBlocks env blockIDs blocks parentHash txNum gasUsed s)
   = Returns (Some err)).
Proof.
  split; [split|split].
  - intros (s' & v & Hrun). destruct blocks as [|b l].
    + split; [reflexivity|]. unfold createBatchForBlocks, Beginx in Hrun.
      destruct (Beginx_err env); [discriminate|reflexivity].
    + destruct (createBatchForBlocks_returns env blockIDs (b :: l) parentHash txNum
                  gasUsed s) as (s1 & r & Hret); [discriminate|congruence].
  - intros (-> & Hbegin). unfold createBatchForBlocks, Beginx. rewrite Hbegin.
    cbn. eauto.
  - intros -> Hbegin. unfold createBatchForBlocks, Beginx. rewrite Hbegin.
    cbn. eexists. split; [reflexivity|]. cbn. unfold new_calls. cbn.
    rewrite drop_app_length. auto.
  - intros err -> Hbegin. unfold createBatchForBlocks, Beginx. rewrite Hbegin.
    reflexivity.
Qed.

End L2Further.

(** * Properties of the proof-message protocol *)
Module MessageProofs.
Import message.

(** ** Hexadecimal strings *)

Lemma hex_byte_roundtrip (v : byte) :
  hex.fromHexChar (hex.hexdigit (Z.shiftr (Z_of_byte v) 4)) = Some (Z.shiftr (Z_of_byte v) 4) /\
  hex.fromHexChar (hex.hexdigit (Z.land (Z_of_byte v) 15)) = Some (Z.land (Z_of_byte v) 15) /\
  byte_of_Z (Z.lor (Z.shiftl (Z.shiftr (Z_of_byte v) 4) 4) (Z.land (Z_of_byte v) 15)) = v.
Proof. destruct v; vm_compute; auto. Qed.

Lemma append_nil_l (s : string) : String.append EmptyString s = s.
Proof. reflexivity. Qed.

Lemma append_cons (c : ascii) (s1 s2 : string) :
  String.append (String c s1) s2 = String c (String.append s1 s2).
Proof. reflexivity. Qed.

(** Decoding what [EncodeToString] wrote gives the bytes back, and goes on
    with whatever follows. *)
Lemma DecodeString_EncodeToString_app (bs : list byte) (s : string) :
  hex.DecodeString (String.append (hex.EncodeToString bs) s)
  = (bs ++ fst (hex.DecodeString s), snd (hex.DecodeString s)).
Proof.
  induction bs as [|v bs IH].
  - cbn [hex.EncodeToString]. rewrite append_nil_l.
    destruct (hex.DecodeString s); reflexivity.
  - cbn [hex.EncodeToString]. rewrite !append_cons. cbn [hex.DecodeString].
    destruct (hex_byte_roundtrip v) as (-> & -> & ->).
    rewrite IH. reflexivity.
Qed.

Lemma append_empty_r (s : string) : String.append s EmptyString = s.
Proof.
  induction s as [|c s IH]; [reflexivity|]. by rewrite append_cons, IH.
Qed.

Lemma DecodeString_EncodeToString (bs : list byte) :
  hex.DecodeString (hex.EncodeToString bs) = (bs, None).
Proof.
  rewrite <- (append_empty_r (hex.EncodeToString bs)).
  rewrite DecodeString_EncodeToString_app. cbn. by rewrite app_nil_r.
Qed.

Lemma length_EncodeToString (bs : list byte) :
  String.length (hex.EncodeToString bs) = (2 * length bs)%nat.
Proof. induction bs as [|v bs IH]; cbn [hex.EncodeToString String.length length]; lia. Qed.

Lemma length_append (s1 s2 : string) :
  String.length (String.append s1 s2) = (String.length s1 + String.length s2)%nat.
Proof.
  induction s1 as [|c s1 IH]; [reflexivity|].
  rewrite append_cons. cbn [String.length]. by rewrite IH.
Qed.

Lemma has0xPrefix_EncodeToString (bs : list byte) :
  common.has0xPrefix (hex.EncodeToString bs) = false.
Proof.
  destruct bs as [|v bs]; [reflexivity|].
  cbn [hex.EncodeToString common.has0xPrefix]. destruct v; reflexivity.
Qed.

Lemma substring_all (s : string) : String.substring 0 (String.length s) s = s.
Proof. induction s as [|c s IH]; cbn; [reflexivity|by rewrite IH]. Qed.

Lemma odd_double (n : nat) : Nat.odd (2 * n) = false.
Proof. rewrite Nat.odd_mul. reflexivity. Qed.

(** [common.FromHex] undoes [common.Bytes2Hex] ... *)
Lemma FromHex_Bytes2Hex (bs : list byte) : common.FromHex (common.Bytes2Hex bs) = bs.
Proof.
  unfold common.FromHex, common.Bytes2Hex, common.Hex2Bytes.
  rewrite has0xPrefix_EncodeToString.
  rewrite length_EncodeToString, odd_double, DecodeString_EncodeToString. reflexivity.
Qed.

(** ... and [hexutil.Encode], even when characters that are not
    hexadecimal follow the encoding. *)
Lemma FromHex_Encode_garbage (bs : list byte) (c : ascii) (s : string) :
  hex.fromHexChar c = None ->
  Nat.odd (String.length s) = true ->
  common.FromHex (String.append (hexutil.Encode bs) (String c s)) = bs.
Proof.
  intros Hc Hodd. unfold common.FromHex, hexutil.Encode, common.Hex2Bytes.
  rewrite !append_cons.
  cbn [common.has0xPrefix Ascii.eqb Bool.eqb andb orb String.length
       String.substring Nat.sub].
  rewrite Nat.sub_0_r, substring_all, length_append, length_EncodeToString.
  cbn [String.length].
  replace (Nat.odd (2 * length bs + S (String.length s))) with false.
  2:{ rewrite Nat.odd_add, odd_double, Nat.odd_succ, <- Nat.negb_odd, Hodd. reflexivity. }
  rewrite DecodeString_EncodeToString_app.
  destruct s as [|q s]; [discriminate Hodd|].
  cbn [hex.DecodeString]. rewrite Hc. cbn. by rewrite app_nil_r.
Qed.

Lemma FromHex_Encode (bs : list byte) : common.FromHex (hexutil.Encode bs) = bs.
Proof.
  unfold common.FromHex, hexutil.Encode, common.Hex2Bytes.
  cbn [common.has0xPrefix Ascii.eqb Bool.eqb andb orb String.length
       String.substring Nat.sub].
  rewrite Nat.sub_0_r, substring_all, length_EncodeToString, odd_double,
    DecodeString_EncodeToString.
  reflexivity.
Qed.

Lemma Bytes2Hex_nonempty (bs : list byte) :
  bs <> [] -> String.eqb (common.Bytes2Hex bs) "" = false.
Proof. destruct bs; [congruence|reflexivity]. Qed.


(** ** The toy scheme satisfies the contract *)

Lemma list_byte_eqb_eq (a b : list byte) : Toy.list_byte_eqb a b = true <-> a = b.
Proof.
  unfold Toy.list_byte_eqb. rewrite andb_true_iff, Nat.eqb_eq. split.
  - intros [Hlen Hall]. revert b Hlen Hall.
    induction a as [|x a IH]; intros [|y b] Hlen Hall; try discriminate; [reflexivity|].
    cbn in Hall. apply andb_true_iff in Hall as [Hxy Hall].
    apply Byte.byte_dec_bl in Hxy as ->. f_equal. apply IH; [by injection Hlen|exact Hall].
  - intros ->. split; [reflexivity|].
    induction b as [|y b IH]; [reflexivity|]. cbn. rewrite IH, andb_true_r.
    by apply Byte.byte_dec_lb.
Qed.

Lemma list_byte_eqb_refl (a : list byte) : Toy.list_byte_eqb a a = true.
Proof. by apply list_byte_eqb_eq. Qed.

Lemma Z_of_byte_range (b : byte) : 0 <= Z_of_byte b < 256.
Proof. unfold Z_of_byte. pose proof (Byte.to_N_bounded b). lia. Qed.

(** Peels a list of known length into its elements. *)
Ltac explode l :=
  repeat (destruct l as [|? l]; [discriminate|]); destruct l; [|discriminate].

Lemma toy_well_formed_firstn (h sig : list byte) :
  length sig = 65%nat ->
  Toy.well_formed h (firstn 64 sig) = Toy.well_formed h sig /\
  nth 63 (firstn 64 sig) x00 = nth 63 sig x00.
Proof. intros Hlen. explode sig. split; reflexivity. Qed.

Lemma toy_sign_shape (h : list byte) (k : byte) (sig : list byte) :
  Toy.sign h k = inr sig ->
  length h = 32%nat /\ sig = h ++ Toy.zeros31 ++ [k; x00].
Proof.
  unfold Toy.sign. destruct (length h =? 32)%nat eqn:Hh; [|discriminate].
  apply Nat.eqb_eq in Hh. intros [= <-]. auto.
Qed.

Lemma toy_laws : SigLaws Toy.scheme.
Proof.
  split; cbn [crypto_Sign crypto_SigToPub crypto_VerifySignature crypto_CompressPubkey
              pubkey_of Toy.scheme].
  - intros h k sig [Hh ->]%toy_sign_shape. rewrite !length_app, Hh. reflexivity.
  - intros h k sig [Hh ->]%toy_sign_shape. explode h.
    unfold low_s, sig_s. cbn [app skipn firstn Toy.zeros31 repeat be_to_Z fold_left].
    pose proof (Z_of_byte_range k). apply Z.leb_le. change (Z_of_byte x00) with 0.
    assert (secp256k1_N / 2 >= 256) by (vm_compute; discriminate). lia.
  - intros h k sig [Hh ->]%toy_sign_shape. explode h.
    unfold Toy.recover, Toy.well_formed.
    cbn [app length Nat.eqb andb firstn skipn nth Toy.zeros31 repeat].
    rewrite !list_byte_eqb_refl. reflexivity.
  - intros h sig pk. unfold Toy.recover.
    destruct (length sig =? 65)%nat eqn:Hlen; [|discriminate].
    by apply Nat.eqb_eq in Hlen.
  - intros h sig pk Hrec _. unfold Toy.recover in Hrec.
    destruct (length sig =? 65)%nat eqn:Hlen; [|discriminate].
    apply Nat.eqb_eq in Hlen.
    destruct (Toy.well_formed h sig) eqn:Hwf; [|discriminate].
    destruct (Z_of_byte (nth 64 sig x00) <? 4); [|discriminate].
    cbn in Hrec. injection Hrec as <-.
    destruct (toy_well_formed_firstn h sig Hlen) as [Hwf' Hnth].
    unfold Toy.verify. rewrite Hwf', Hwf, Hnth, list_byte_eqb_refl.
    rewrite length_firstn, Hlen. reflexivity.
  - intros pk h rs. unfold Toy.verify.
    destruct (length rs =? 64)%nat eqn:Hlen; [|discriminate].
    by apply Nat.eqb_eq in Hlen.
  - intros pk. reflexivity.
Qed.

(** ** Hashing *)


(** Every field of a [ProofDetail] is encodable: [Hash] never fails, and
    its digest is 32 bytes long. *)
Lemma Hash_succeeds (z : option ProofDetail.t) :
  ProofDetail.Hash z = (keccak.Keccak256 (fst (ProofDetail.EncodeToBytes z)), None).
Proof. destruct z; reflexivity. Qed.


(** ** The two paths of [Verify] *)

Section Verify.
Context (S : SigScheme).

Lemma eqb_empty_true (s : string) : s = EmptyString -> String.eqb s "" = true.
Proof. intros ->. reflexivity. Qed.

Lemma eqb_empty_false (s : string) : s <> EmptyString -> String.eqb s "" = false.
Proof. intros Hne. by apply String.eqb_neq. Qed.

(** No key cached: the key is recovered from the signature, cached, and
    the signature is checked against it. *)
Lemma Verify_fresh (a : ProofMsg.t) :
  ProofMsg.publicKey a = EmptyString ->
  ProofMsg.Verify S a =
    let hash := fst (ProofDetail.Hash (ProofMsg.zkProof a)) in
    let sig := common.FromHex (ProofMsg.Signature a) in
    match crypto_SigToPub S hash sig with
    | inl err => Returns (a, (false, Some err))
    | inr pk =>
        match ProofMsg.drop_last_byte sig with
        | Panics v => Panics v
        | Returns rs =>
            Returns (ProofMsg.with_publicKey a
                       (common.Bytes2Hex (crypto_CompressPubkey S pk)),
                     (crypto_VerifySignature S (crypto_CompressPubkey S pk) hash rs, None))
        end
    end.
Proof.
  intros Hpk. unfold ProofMsg.Verify. rewrite Hash_succeeds, (eqb_empty_true _ Hpk).
  cbn [fst]. destruct (crypto_SigToPub S _ _); [reflexivity|].
  unfold ProofMsg.verify_signature.
  cbn [ProofMsg.publicKey ProofMsg.with_publicKey]. by rewrite FromHex_Bytes2Hex.
Qed.

(** A key is cached: no recovery, the signature is checked against the
    cached key. *)
Lemma Verify_cached (a : ProofMsg.t) :
  ProofMsg.publicKey a <> EmptyString ->
  ProofMsg.Verify S a =
    let hash := fst (ProofDetail.Hash (ProofMsg.zkProof a)) in
    let sig := common.FromHex (ProofMsg.Signature a) in
    match ProofMsg.drop_last_byte sig with
    | Panics v => Panics v
    | Returns rs =>
        Returns (a, (crypto_VerifySignature S (common.FromHex (ProofMsg.publicKey a))
                       hash rs, None))
    end.
Proof.
  intros Hpk. unfold ProofMsg.Verify. rewrite Hash_succeeds, (eqb_empty_false _ Hpk).
  reflexivity.
Qed.

Lemma drop_last_byte_65 (sig : list byte) :
  length sig = 65%nat -> ProofMsg.drop_last_byte sig = Returns (firstn 64 sig).
Proof. intros Hlen. unfold ProofMsg.drop_last_byte. rewrite Hlen. reflexivity. Qed.

Lemma drop_last_byte_nonempty (sig : list byte) :
  sig <> [] ->
  ProofMsg.drop_last_byte sig = Returns (firstn (length sig - 1) sig).
Proof. destruct sig; [congruence|reflexivity]. Qed.

Lemma Sign_inv (a a' : ProofMsg.t) (k : PrivateKey S) :
  ProofMsg.Sign S a k = (a', None) ->
  exists sig,
    crypto_Sign S (fst (ProofDetail.Hash (ProofMsg.zkProof a))) k = inr sig /\
    a' = ProofMsg.with_signature a (hexutil.Encode sig).
Proof.
  unfold ProofMsg.Sign. rewrite Hash_succeeds. cbn [fst].
  destruct (crypto_Sign S _ k) as [e|sig]; [discriminate|].
  intros [= <-]. by exists sig.
Qed.

End Verify.

(** ** Signing and verifying *)

(** C1: for every [ProofDetail] [d] and private key [k], once [Sign] has
    succeeded on the message that carries [d], [Verify] on the signed
    message returns [(true, nil)], and [PublicKey] returns the hex encoding
    of the compressed public key derived from [k], whether it is asked
    before or after [Verify]. *)
Theorem Sign_then_Verify (S : SigScheme) (L : SigLaws S)
    (d : ProofDetail.t) (sig0 : string) (k : PrivateKey S) (a' : ProofMsg.t) :
  ProofMsg.Sign S
    {| ProofMsg.zkProof := Some d; ProofMsg.Signature := sig0;
       ProofMsg.publicKey := EmptyString |} k = (a', None) ->
  ProofMsg.zkProof a' = Some d /\
  ProofMsg.Verify S a'
    = Returns (ProofMsg.with_publicKey a' (ProofMsg.signer_id S k), (true, None)) /\
  ProofMsg.PublicKey S a'
    = (ProofMsg.with_publicKey a' (ProofMsg.signer_id S k),
       (ProofMsg.signer_id S k, None)) /\
  ProofMsg.PublicKey S (ProofMsg.with_publicKey a' (ProofMsg.signer_id S k))
    = (ProofMsg.with_publicKey a' (ProofMsg.signer_id S k),
       (ProofMsg.signer_id S k, None)).
Proof.
  intros Hsign.
  destruct (Sign_inv S _ a' k Hsign) as (sig & Hsig & ->).
  cbn [ProofMsg.zkProof] in Hsig.
  pose proof (sign_length S L _ _ _ Hsig) as Hlen.
  pose proof (sign_recover S L _ _ _ Hsig) as Hrec.
  pose proof (recover_verify S L _ _ _ Hrec (sign_low_s S L _ _ _ Hsig)) as Hver.
  split; [reflexivity|]. split; [|split].
  - rewrite Verify_fresh by reflexivity.
    cbn [ProofMsg.with_signature ProofMsg.zkProof ProofMsg.Signature].
    rewrite FromHex_Encode. cbn zeta. rewrite Hrec, (drop_last_byte_65 _ Hlen), Hver.
    reflexivity.
  - unfold ProofMsg.PublicKey.
    cbn [ProofMsg.with_signature ProofMsg.zkProof ProofMsg.Signature ProofMsg.publicKey].
    cbn [String.eqb]. rewrite Hash_succeeds, FromHex_Encode.
    rewrite Hash_succeeds in Hrec. cbn [fst] in Hrec. rewrite Hrec. reflexivity.
  - unfold ProofMsg.PublicKey. cbn [ProofMsg.with_publicKey ProofMsg.publicKey].
    rewrite eqb_empty_false; [reflexivity|].
    unfold ProofMsg.signer_id. intros Hempty.
    pose proof (compress_length S L (pubkey_of S k)) as Hc.
    destruct (crypto_CompressPubkey S (pubkey_of S k)); discriminate.
Qed.

(** The theorem on the example detail, signed in the toy scheme. *)
Lemma Sign_then_Verify_witness :
  ProofMsg.Sign Toy.scheme
    {| ProofMsg.zkProof := Some Examples.detail; ProofMsg.Signature := EmptyString;
       ProofMsg.publicKey := EmptyString |} Examples.key
    = (Examples.signed_msg, None) /\
  ProofMsg.zkProof Examples.signed_msg = Some Examples.detail /\
  ProofMsg.Verify Toy.scheme Examples.signed_msg
    = Returns (ProofMsg.with_publicKey Examples.signed_msg
                 (ProofMsg.signer_id Toy.scheme Examples.key), (true, None)) /\
  ProofMsg.PublicKey Toy.scheme Examples.signed_msg
    = (ProofMsg.with_publicKey Examples.signed_msg
         (ProofMsg.signer_id Toy.scheme Examples.key),
       (ProofMsg.signer_id Toy.scheme Examples.key, None)) /\
  ProofMsg.PublicKey Toy.scheme
      (ProofMsg.with_publicKey Examples.signed_msg
         (ProofMsg.signer_id Toy.scheme Examples.key))
    = (ProofMsg.with_publicKey Examples.signed_msg
         (ProofMsg.signer_id Toy.scheme Examples.key),
       (ProofMsg.signer_id Toy.scheme Examples.key, None)).
Proof.
  split; [vm_compute; reflexivity|].
  apply (Sign_then_Verify Toy.scheme toy_laws Examples.detail EmptyString Examples.key
           Examples.signed_msg).
  vm_compute; reflexivity.
Defined.

(** C3: when no key is cached and the decoded signature is one from which
    [SigToPub] recovers a key and whose [s] is in low form, [Verify] returns
    [(true, nil)] and caches that key: the signature is only ever checked
    against the key recovered from it.  On a message whose signature is of
    that kind, [(false, nil)] can only come out when a key was already
    cached, and that key differs from the recovered one. *)
Theorem Verify_accepts_what_it_recovers (S : SigScheme) (L : SigLaws S)
    (a : ProofMsg.t) (pk : PublicKeyT S) :
  crypto_SigToPub S (fst (ProofDetail.Hash (ProofMsg.zkProof a)))
    (common.FromHex (ProofMsg.Signature a)) = inr pk ->
  low_s (common.FromHex (ProofMsg.Signature a)) = true ->
  (ProofMsg.publicKey a = EmptyString ->
   ProofMsg.Verify S a
   = Returns (ProofMsg.with_publicKey a (common.Bytes2Hex (crypto_CompressPubkey S pk)),
              (true, None))) /\
  (forall a', ProofMsg.Verify S a = Returns (a', (false, None)) ->
              ProofMsg.publicKey a <> EmptyString /\
              common.FromHex (ProofMsg.publicKey a) <> crypto_CompressPubkey S pk /\
              ProofMsg.publicKey a <> common.Bytes2Hex (crypto_CompressPubkey S pk)).
Proof.
  intros Hrec Hlow.
  pose proof (recover_length S L _ _ _ Hrec) as Hlen.
  pose proof (recover_verify S L _ _ _ Hrec Hlow) as Hver.
  assert (Hfresh : ProofMsg.publicKey a = EmptyString ->
            ProofMsg.Verify S a
            = Returns (ProofMsg.with_publicKey a
                         (common.Bytes2Hex (crypto_CompressPubkey S pk)), (true, None))).
  { intros Hpk. rewrite Verify_fresh by exact Hpk. cbn zeta.
    rewrite Hrec, (drop_last_byte_65 _ Hlen), Hver. reflexivity. }
  split; [exact Hfresh|].
  intros a' Hrun.
  assert (Hcached : ProofMsg.publicKey a <> EmptyString).
  { intros Hpk. rewrite (Hfresh Hpk) in Hrun. discriminate. }
  split; [exact Hcached|].
  rewrite Verify_cached in Hrun by exact Hcached. cbn zeta in Hrun.
  rewrite (drop_last_byte_65 _ Hlen) in Hrun.
  assert (Hne : common.FromHex (ProofMsg.publicKey a) <> crypto_CompressPubkey S pk).
  { intros Heq. rewrite Heq, Hver in Hrun. discriminate. }
  split; [exact Hne|].
  intros Heq. apply Hne. rewrite Heq. apply FromHex_Bytes2Hex.
Qed.

Lemma signed_msg_recovers :
  crypto_SigToPub Toy.scheme (fst (ProofDetail.Hash (ProofMsg.zkProof Examples.signed_msg)))
    (common.FromHex (ProofMsg.Signature Examples.signed_msg)) = inr Examples.key.
Proof. vm_compute. reflexivity. Qed.

(** The theorem on the signed example message. *)
Lemma Verify_accepts_what_it_recovers_witness :
  crypto_SigToPub Toy.scheme (fst (ProofDetail.Hash (ProofMsg.zkProof Examples.signed_msg)))
    (common.FromHex (ProofMsg.Signature Examples.signed_msg)) = inr Examples.key /\
  low_s (common.FromHex (ProofMsg.Signature Examples.signed_msg)) = true /\
  (ProofMsg.publicKey Examples.signed_msg = EmptyString ->
   ProofMsg.Verify Toy.scheme Examples.signed_msg
   = Returns (ProofMsg.with_publicKey Examples.signed_msg
                (common.Bytes2Hex (crypto_CompressPubkey Toy.scheme Examples.key)),
              (true, None))) /\
  (forall a', ProofMsg.Verify Toy.scheme Examples.signed_msg = Returns (a', (false, None)) ->
              ProofMsg.publicKey Examples.signed_msg <> EmptyString /\
              common.FromHex (ProofMsg.publicKey Examples.signed_msg)
                <> crypto_CompressPubkey Toy.scheme Examples.key /\
              ProofMsg.publicKey Examples.signed_msg
                <> common.Bytes2Hex (crypto_CompressPubkey Toy.scheme Examples.key)).
Proof.
  split; [vm_compute; reflexivity|]. split; [vm_compute; reflexivity|].
  apply (Verify_accepts_what_it_recovers Toy.scheme toy_laws Examples.signed_msg
           Examples.key).
  - vm_compute; reflexivity.
  - vm_compute; reflexivity.
Defined.

(** A rejection is reachable: the signed message with another prover's key
    in the cache verifies to [(false, nil)]. *)
Lemma stale_key_rejects :
  ProofMsg.Verify Toy.scheme (ProofMsg.with_publicKey Examples.signed_msg "02aa")
  = Returns (ProofMsg.with_publicKey Examples.signed_msg "02aa", (false, None)).
Proof. vm_compute. reflexivity. Qed.

(** C10: when a key is already cached and the stored signature decodes to
    no byte at all, [Verify] panics on [sig[:len(sig)-1]] with a
    slice-bounds violation; it returns neither an error nor [false].
    (Hashing cannot fail, so nothing is asked of the [ProofDetail].) *)
Theorem Verify_panics_on_empty_signature (S : SigScheme) (a : ProofMsg.t) :
  ProofMsg.publicKey a <> EmptyString ->
  common.FromHex (ProofMsg.Signature a) = [] ->
  snd (ProofDetail.Hash (ProofMsg.zkProof a)) = None /\
  ProofMsg.Verify S a = Panics "runtime error: slice bounds out of range [:-1]"%string.
Proof.
  intros Hpk Hsig. split; [by rewrite Hash_succeeds|].
  rewrite Verify_cached by exact Hpk. cbn zeta. rewrite Hsig. reflexivity.
Qed.

(** The theorem on a message with a cached key and the signature [zz]. *)
Lemma Verify_panics_on_empty_signature_witness :
  ProofMsg.publicKey (Examples.cached_msg "zz") <> EmptyString /\
  common.FromHex (ProofMsg.Signature (Examples.cached_msg "zz")) = [] /\
  snd (ProofDetail.Hash (ProofMsg.zkProof (Examples.cached_msg "zz"))) = None /\
  ProofMsg.Verify Toy.scheme (Examples.cached_msg "zz")
  = Panics "runtime error: slice bounds out of range [:-1]"%string.
Proof.
  split; [discriminate|]. split; [reflexivity|].
  apply (Verify_panics_on_empty_signature Toy.scheme (Examples.cached_msg "zz")).
  - discriminate.
  - reflexivity.
Defined.

(** The empty string, a bare prefix and a string that starts with a
    character that is not hexadecimal all decode to no byte. *)
Lemma FromHex_empty_examples :
  common.FromHex "" = [] /\ common.FromHex "0x" = [] /\ common.FromHex "zz" = [] /\
  common.FromHex "12zz" = [x12].
Proof. repeat split. Qed.

(** ** The sanity check of a batch proof *)

(** C9: [SanityCheck] always returns (it never panics): an error on a nil
    receiver ("agg_proof is nil"), on an empty proof ("proof not ready") and
    on a proof whose length is not a multiple of 32 (a message that gives
    the length), and nil on every non-empty proof whose length is a multiple
    of 32. *)
Theorem SanityCheck_spec :
  BatchProof.SanityCheck None = Returns (Some "agg_proof is nil"%string) /\
  (forall ap, length (BatchProof.Proof ap) = 0%nat ->
     BatchProof.SanityCheck (Some ap) = Returns (Some "proof not ready"%string)) /\
  (forall ap, (length (BatchProof.Proof ap) mod 32)%nat <> 0%nat ->
     BatchProof.SanityCheck (Some ap)
     = Returns (Some (String.append "proof buffer has wrong length, expected: 32, got: "
                        (fmt_d (Z.of_nat (length (BatchProof.Proof ap))))))) /\
  (forall ap, length (BatchProof.Proof ap) <> 0%nat ->
     (length (BatchProof.Proof ap) mod 32)%nat = 0%nat ->
     BatchProof.SanityCheck (Some ap) = Returns None) /\
  (forall ap, exists r, BatchProof.SanityCheck ap = Returns r) /\
  (forall ap, BatchProof.SanityCheck ap = Returns None ->
     exists p, ap = Some p /\ length (BatchProof.Proof p) <> 0%nat /\
               (length (BatchProof.Proof p) mod 32)%nat = 0%nat).
Proof.
  split; [reflexivity|]. split; [|split; [|split; [|split]]].
  - intros ap Hlen. unfold BatchProof.SanityCheck. by rewrite Hlen.
  - intros ap Hmod. unfold BatchProof.SanityCheck.
    destruct (length (BatchProof.Proof ap)) as [|n] eqn:Hlen; [by destruct Hmod|].
    cbn [Nat.eqb]. apply Nat.eqb_neq in Hmod. rewrite Hmod. reflexivity.
  - intros ap Hlen Hmod. unfold BatchProof.SanityCheck.
    apply Nat.eqb_neq in Hlen. apply Nat.eqb_eq in Hmod. by rewrite Hlen, Hmod.
  - intros [ap|]; [|by eexists]. unfold BatchProof.SanityCheck.
    repeat case_match; by eexists.
  - intros [ap|]; [|discriminate]. unfold BatchProof.SanityCheck.
    destruct (length (BatchProof.Proof ap) =? 0)%nat eqn:Hlen; [discriminate|].
    destruct (length (BatchProof.Proof ap) mod 32 =? 0)%nat eqn:Hmod; [|discriminate].
    intros _. exists ap. apply Nat.eqb_neq in Hlen. apply Nat.eqb_eq in Hmod. auto.
Qed.

(** A 64-byte proof passes; a 33-byte proof is refused with its length. *)
Lemma SanityCheck_examples :
  BatchProof.SanityCheck (Some Examples.batch_proof_64) = Returns None /\
  BatchProof.SanityCheck (Some Examples.batch_proof_33)
  = Returns (Some "proof buffer has wrong length, expected: 32, got: 33"%string).
Proof. split; reflexivity. Qed.

(** ** What [Verify] reports, and what it lets through *)

Lemma with_publicKey_same (a : ProofMsg.t) :
  ProofMsg.with_publicKey a (ProofMsg.publicKey a) = a.
Proof. by destruct a. Qed.

Lemma Hash_no_error (z : option ProofDetail.t) (e : error) :
  snd (ProofDetail.Hash z) = Some e -> False.
Proof. by rewrite Hash_succeeds. Qed.

(** C2 (as amended): [Verify] returns an error, with [false] and the message
    unchanged, exactly when hashing fails or when, no key being cached,
    [SigToPub] fails on the bytes [common.FromHex] decodes from the
    signature string; in particular it does so whenever no key is cached and
    those bytes are not 65 long.  It returns [(false, nil)] exactly when the
    decoded signature is not empty and [VerifySignature] refuses it, without
    its last byte, under the key that is cached or was just recovered. *)
Theorem Verify_error_or_rejection (S : SigScheme) (L : SigLaws S) (a : ProofMsg.t) :
  (forall a' b e,
     ProofMsg.Verify S a = Returns (a', (b, Some e)) <->
     a' = a /\ b = false /\
     (snd (ProofDetail.Hash (ProofMsg.zkProof a)) = Some e \/
      ProofMsg.publicKey a = EmptyString /\
      crypto_SigToPub S (fst (ProofDetail.Hash (ProofMsg.zkProof a)))
        (common.FromHex (ProofMsg.Signature a)) = inl e)) /\
  (forall a',
     ProofMsg.Verify S a = Returns (a', (false, None)) <->
     common.FromHex (ProofMsg.Signature a) <> [] /\
     exists key,
       a' = ProofMsg.with_publicKey a key /\
       (ProofMsg.publicKey a <> EmptyString /\ key = ProofMsg.publicKey a \/
        ProofMsg.publicKey a = EmptyString /\
        exists pk,
          crypto_SigToPub S (fst (ProofDetail.Hash (ProofMsg.zkProof a)))
            (common.FromHex (ProofMsg.Signature a)) = inr pk /\
          key = common.Bytes2Hex (crypto_CompressPubkey S pk)) /\
       crypto_VerifySignature S (common.FromHex key)
         (fst (ProofDetail.Hash (ProofMsg.zkProof a)))
         (firstn (length (common.FromHex (ProofMsg.Signature a)) - 1)
            (common.FromHex (ProofMsg.Signature a))) = false) /\
  (ProofMsg.publicKey a = EmptyString ->
   length (common.FromHex (ProofMsg.Signature a)) <> 65%nat ->
   exists e, ProofMsg.Verify S a = Returns (a, (false, Some e))).
Proof.
  set (hash := fst (ProofDetail.Hash (ProofMsg.zkProof a))).
  set (sig := common.FromHex (ProofMsg.Signature a)).
  destruct (String.eqb_spec (ProofMsg.publicKey a) "") as [Hpk|Hpk].
  - (* no key cached *)
    rewrite (Verify_fresh S a Hpk). cbn zeta. fold hash sig.
    destruct (crypto_SigToPub S hash sig) as [err|pk] eqn:Hrec.
    + split; [|split].
      * intros a' b e. split.
        -- intros [= <- <- <-]. auto.
        -- intros (-> & -> & [Hh|[_ [= <-]]]); [by apply Hash_no_error in Hh|reflexivity].
      * intros a'. split; [discriminate|].
        intros (_ & key & _ & [[Hne _]|(_ & pk & [=] & _)] & _). contradiction.
      * intros _ _. by exists err.
    + pose proof (recover_length S L _ _ _ Hrec) as Hlen.
      rewrite (drop_last_byte_65 _ Hlen).
      split; [|split].
      * intros a' b e. split; [discriminate|].
        intros (_ & _ & [Hh|[_ [=]]]). by apply Hash_no_error in Hh.
      * intros a'. rewrite Hlen. change (65 - 1)%nat with 64%nat. split.
        -- intros [= <- Hv]. split; [by destruct sig|].
           eexists. split; [reflexivity|]. split; [right; eauto|].
           by rewrite FromHex_Bytes2Hex.
        -- intros (_ & key & -> & [[Hne _]|(_ & pk' & [= <-] & ->)] & Hv);
             [contradiction|].
           rewrite FromHex_Bytes2Hex in Hv. by rewrite Hv.
      * intros _ Hne. contradiction.
  - (* a key is cached *)
    rewrite (Verify_cached S a Hpk). cbn zeta. fold hash sig.
    split; [|split].
    + intros a' b e. split.
      * destruct (ProofMsg.drop_last_byte sig); discriminate.
      * intros (_ & _ & [Hh|[He _]]); [by apply Hash_no_error in Hh|contradiction].
    + intros a'. unfold ProofMsg.drop_last_byte.
      destruct sig as [|b0 sig0] eqn:Hsig.
      * split; [discriminate|]. intros [Hne _]. contradiction.
      * cbn [length Nat.eqb]. split.
        -- intros [= <- Hv]. split; [discriminate|].
           exists (ProofMsg.publicKey a). rewrite with_publicKey_same. auto.
        -- intros (_ & key & -> & [[_ ->]|[He _]] & Hv); [|contradiction].
           rewrite with_publicKey_same. by rewrite Hv.
    + intros He. contradiction.
Qed.

(** The theorem on the tampered signature without a cached key. *)
Lemma Verify_error_or_rejection_witness :
  (forall a' b e,
     ProofMsg.Verify Toy.scheme Examples.flipped_fresh_msg = Returns (a', (b, Some e)) <->
     a' = Examples.flipped_fresh_msg /\ b = false /\
     (snd (ProofDetail.Hash (ProofMsg.zkProof Examples.flipped_fresh_msg)) = Some e \/
      ProofMsg.publicKey Examples.flipped_fresh_msg = EmptyString /\
      crypto_SigToPub Toy.scheme
        (fst (ProofDetail.Hash (ProofMsg.zkProof Examples.flipped_fresh_msg)))
        (common.FromHex (ProofMsg.Signature Examples.flipped_fresh_msg)) = inl e)) /\
  (forall a',
     ProofMsg.Verify Toy.scheme Examples.flipped_fresh_msg = Returns (a', (false, None)) <->
     common.FromHex (ProofMsg.Signature Examples.flipped_fresh_msg) <> [] /\
     exists key,
       a' = ProofMsg.with_publicKey Examples.flipped_fresh_msg key /\
       (ProofMsg.publicKey Examples.flipped_fresh_msg <> EmptyString /\
        key = ProofMsg.publicKey Examples.flipped_fresh_msg \/
        ProofMsg.publicKey Examples.flipped_fresh_msg = EmptyString /\
        exists pk,
          crypto_SigToPub Toy.scheme
            (fst (ProofDetail.Hash (ProofMsg.zkProof Examples.flipped_fresh_msg)))
            (common.FromHex (ProofMsg.Signature Examples.flipped_fresh_msg)) = inr pk /\
          key = common.Bytes2Hex (crypto_CompressPubkey Toy.scheme pk)) /\
       crypto_VerifySignature Toy.scheme (common.FromHex key)
         (fst (ProofDetail.Hash (ProofMsg.zkProof Examples.flipped_fresh_msg)))
         (firstn (length (common.FromHex (ProofMsg.Signature Examples.flipped_fresh_msg)) - 1)
            (common.FromHex (ProofMsg.Signature Examples.flipped_fresh_msg))) = false) /\
  (ProofMsg.publicKey Examples.flipped_fresh_msg = EmptyString ->
   length (common.FromHex (ProofMsg.Signature Examples.flipped_fresh_msg)) <> 65%nat ->
   exists e, ProofMsg.Verify Toy.scheme Examples.flipped_fresh_msg
             = Returns (Examples.flipped_fresh_msg, (false, Some e))).
Proof.
  exact (Verify_error_or_rejection Toy.scheme toy_laws Examples.flipped_fresh_msg).
Defined.

(** Whatever the scheme, characters that are not hexadecimal after a valid
    signature are dropped by [common.FromHex], so the message verifies. *)
Lemma Verify_accepts_trailing_garbage (S : SigScheme) (L : SigLaws S)
    (a a' : ProofMsg.t) (k : PrivateKey S) (c : ascii) (s : string) :
  ProofMsg.publicKey a = EmptyString ->
  ProofMsg.Sign S a k = (a', None) ->
  hex.fromHexChar c = None ->
  Nat.odd (String.length s) = true ->
  exists a'',
    ProofMsg.Verify S
      (ProofMsg.with_signature a' (String.append (ProofMsg.Signature a') (String c s)))
    = Returns (a'', (true, None)).
Proof.
  intros Hpk Hsign Hc Hodd.
  destruct (Sign_inv S a a' k Hsign) as (sig & Hsig & ->).
  pose proof (sign_length S L _ _ _ Hsig) as Hlen.
  pose proof (sign_recover S L _ _ _ Hsig) as Hrec.
  pose proof (recover_verify S L _ _ _ Hrec (sign_low_s S L _ _ _ Hsig)) as Hver.
  rewrite Verify_fresh by exact Hpk.
  cbn [ProofMsg.with_signature ProofMsg.zkProof ProofMsg.Signature].
  rewrite (FromHex_Encode_garbage sig c s Hc Hodd). cbn zeta.
  rewrite Hrec, (drop_last_byte_65 _ Hlen), Hver. by eexists.
Qed.

(** Whatever the scheme, once the signer's key is cached the last byte of
    the signature is never looked at. *)
Lemma Verify_ignores_last_byte_when_cached (S : SigScheme) (a : ProofMsg.t)
    (sig' : string) (rs : list byte) (b b' : byte) :
  ProofMsg.publicKey a <> EmptyString ->
  common.FromHex (ProofMsg.Signature a) = rs ++ [b] ->
  common.FromHex sig' = rs ++ [b'] ->
  forall r,
    ProofMsg.Verify S a = Returns (a, r) ->
    ProofMsg.Verify S (ProofMsg.with_signature a sig')
    = Returns (ProofMsg.with_signature a sig', r).
Proof.
  intros Hpk Hsig Hsig' r.
  rewrite !Verify_cached by exact Hpk. cbn zeta.
  cbn [ProofMsg.with_signature ProofMsg.zkProof ProofMsg.Signature ProofMsg.publicKey].
  rewrite Hsig, Hsig'. unfold ProofMsg.drop_last_byte.
  rewrite !length_app. cbn [length]. rewrite !Nat.add_1_r. cbn [Nat.eqb].
  rewrite !Nat.sub_succ, !Nat.sub_0_r, !firstn_app, !firstn_all, !Nat.sub_diag.
  cbn [firstn]. intros [= <-]. reflexivity.
Qed.

(** C2 as stated fails on three counts.  A signature string that is not
    valid hexadecimal (two characters [zz] after the signature) is accepted
    with [(true, nil)] instead of an error.  With the signer's key cached, a
    signature whose last byte was changed from [00] to [ff] is accepted with
    [(true, nil)] instead of [(false, nil)]; the same signature on the
    message without a cached key yields an error, again not [(false, nil)].
    And with a key cached, a signature that stops being hexadecimal after
    its first byte yields a silent [(false, nil)], not an error. *)
Lemma Verify_misses_tampering :
  snd (hex.DecodeString
         (String.substring 2 (String.length (ProofMsg.Signature Examples.garbage_msg) - 2)
            (ProofMsg.Signature Examples.garbage_msg)))
    = Some hex.InvalidByteError /\
  ProofMsg.Verify Toy.scheme Examples.garbage_msg
    = Returns (Examples.verified_msg_with (ProofMsg.Signature Examples.garbage_msg),
               (true, None)) /\
  common.FromHex (ProofMsg.Signature Examples.flipped_msg)
    = firstn 64 (common.FromHex (ProofMsg.Signature Examples.signed_msg)) ++ [xff] /\
  common.FromHex (ProofMsg.Signature Examples.signed_msg)
    = firstn 64 (common.FromHex (ProofMsg.Signature Examples.signed_msg)) ++ [x00] /\
  ProofMsg.Verify Toy.scheme Examples.flipped_msg
    = Returns (Examples.flipped_msg, (true, None)) /\
  ProofMsg.Verify Toy.scheme Examples.flipped_fresh_msg
    = Returns (Examples.flipped_fresh_msg, (false, Some "recovery failed"%string)) /\
  snd (hex.DecodeString "12zz") = Some hex.InvalidByteError /\
  ProofMsg.Verify Toy.scheme (Examples.cached_msg "12zz")
    = Returns (Examples.cached_msg "12zz", (false, None)).
Proof. repeat split; vm_compute; reflexivity. Qed.

(** ** The RLP serialization is canonical *)

Lemma Z_of_byte_of_Z (z : Z) : Z_of_byte (byte_of_Z z) = z mod 256.
Proof.
  unfold Z_of_byte, byte_of_Z.
  assert (Hr : 0 <= z mod 256 < 256) by (apply Z.mod_pos_bound; lia).
  destruct (Byte.of_N (Z.to_N (z mod 256))) as [b|] eqn:Hb.
  - apply Byte.to_of_N in Hb. rewrite Hb. lia.
  - exfalso. pose proof (Byte.to_of_N_option_map (Z.to_N (z mod 256))) as H.
    rewrite Hb in H. cbn in H. destruct (N.leb_spec (Z.to_N (z mod 256)) 255); [discriminate|lia].
Qed.

Lemma Z_of_byte_of_Z_small (z : Z) : 0 <= z < 256 -> Z_of_byte (byte_of_Z z) = z.
Proof. intros Hz. rewrite Z_of_byte_of_Z. by apply Z.mod_small. Qed.

Lemma be_to_Z_snoc (bs : list byte) (b : byte) :
  be_to_Z (bs ++ [b]) = 256 * be_to_Z bs + Z_of_byte b.
Proof. unfold be_to_Z. by rewrite fold_left_app. Qed.

Lemma be_to_Z_be_bytes (n : nat) :
  forall i, 0 <= i -> be_to_Z (be_bytes n i) = i mod 256 ^ Z.of_nat n.
Proof.
  induction n as [|n IH]; intros i Hi.
  - cbn. by rewrite Z.mod_1_r.
  - cbn [be_bytes]. rewrite be_to_Z_snoc, Z_of_byte_of_Z, IH
      by (rewrite Z.shiftr_div_pow2 by lia; apply Z.div_pos; lia).
    rewrite Z.shiftr_div_pow2 by lia. change (2 ^ 8) with 256.
    rewrite Nat2Z.inj_succ, Z.pow_succ_r by lia.
    rewrite Z.rem_mul_r; [lia|lia|apply Z.pow_pos_nonneg; lia].
Qed.

Lemma length_be_bytes (n : nat) (i : Z) : length (be_bytes n i) = n.
Proof.
  revert i. induction n as [|n IH]; intros i; [reflexivity|].
  cbn [be_bytes]. rewrite length_app, IH. cbn. lia.
Qed.

(** [putint] writes the value on as few bytes as hold it, between 1 and 8. *)
Lemma putint_be_bytes (i : Z) :
  0 <= i < 2 ^ 64 ->
  exists n, (1 <= n <= 8)%nat /\ rlp.putint i = be_bytes n i /\ i < 256 ^ Z.of_nat n /\
            (n = 1%nat \/ 256 ^ Z.of_nat (n - 1) <= i).
Proof.
  intros Hi. unfold rlp.putint.
  repeat (case_match; [match goal with H : (_ <? _) = true |- _ => apply Z.ltb_lt in H end|
                       match goal with H : (_ <? _) = false |- _ => apply Z.ltb_ge in H end]).
  - exists 1%nat. repeat split; lia.
  - exists 2%nat. repeat split; try lia. right. simpl. lia.
  - exists 3%nat. repeat split; try lia. right. simpl. lia.
  - exists 4%nat. repeat split; try lia. right. simpl. lia.
  - exists 5%nat. repeat split; try lia. right. simpl. lia.
  - exists 6%nat. repeat split; try lia. right. simpl. lia.
  - exists 7%nat. repeat split; try lia. right. simpl. lia.
  - exists 8%nat. repeat split; try lia. right. simpl. lia.
Qed.

Lemma be_to_Z_putint (i : Z) : 0 <= i < 2 ^ 64 -> be_to_Z (rlp.putint i) = i.
Proof.
  intros Hi. destruct (putint_be_bytes i Hi) as (n & Hn & -> & Hlt & _).
  rewrite be_to_Z_be_bytes by lia. apply Z.mod_small. lia.
Qed.

Lemma len_putint (i : Z) : 0 <= i < 2 ^ 64 -> 1 <= rlp.len (rlp.putint i) <= 8.
Proof.
  intros Hi. destruct (putint_be_bytes i Hi) as (n & Hn & -> & _).
  unfold rlp.len. rewrite length_be_bytes. lia.
Qed.

Lemma take_drop_app_len (s r : list byte) :
  take (length s) (s ++ r) = s /\ drop (length s) (s ++ r) = r.
Proof. split; [by rewrite take_app_length|by rewrite drop_app_length]. Qed.

(** A header followed by its content reads back as that content. *)
Lemma split_item_header (tag : Z) (is_list : bool) (content r : list byte) :
  (tag = 128 /\ is_list = false \/ tag = 192 /\ is_list = true) ->
  rlp.fits content ->
  rlp.split_item
    ((if rlp.len content <? 56 then [byte_of_Z (tag + rlp.len content)]
      else byte_of_Z (tag + 55 + rlp.len (rlp.putint (rlp.len content)))
             :: rlp.putint (rlp.len content)) ++ content ++ r)
  = Some (is_list, content, r).
Proof.
  intros Htag Hfit. unfold rlp.fits in Hfit.
  assert (Hlen0 : 0 <= rlp.len content) by (unfold rlp.len; lia).
  destruct (take_drop_app_len content r) as [Htake Hdrop].
  destruct (Z.ltb_spec (rlp.len content) 56) as [Hshort|Hlong].
  - cbn [app rlp.split_item]. rewrite Z_of_byte_of_Z_small by lia.
    destruct Htag as [[-> ->]|[-> ->]].
    + replace (128 + rlp.len content <? 128) with false by lia.
      replace (128 + rlp.len content <? 184) with true by lia.
      replace (Z.to_nat (128 + rlp.len content - 128)) with (length content)
        by (unfold rlp.len; lia).
      by rewrite Htake, Hdrop.
    + replace (192 + rlp.len content <? 128) with false by lia.
      replace (192 + rlp.len content <? 184) with false by lia.
      replace (192 + rlp.len content <? 192) with false by lia.
      replace (192 + rlp.len content <? 248) with true by lia.
      replace (Z.to_nat (192 + rlp.len content - 192)) with (length content)
        by (unfold rlp.len; lia).
      by rewrite Htake, Hdrop.
  - pose proof (len_putint (rlp.len content) ltac:(lia)) as Hk.
    pose proof (be_to_Z_putint (rlp.len content) ltac:(lia)) as Hbe.
    set (size := rlp.putint (rlp.len content)) in *.
    cbn [app rlp.split_item]. rewrite Z_of_byte_of_Z_small by lia.
    assert (Hsize : take (length size) (size ++ content ++ r) = size
                    /\ drop (length size) (size ++ content ++ r) = content ++ r)
      by (split; [by rewrite take_app_length|by rewrite drop_app_length]).
    destruct Hsize as [Hts Hds].
    destruct Htag as [[-> ->]|[-> ->]].
    + replace (128 + 55 + rlp.len size <? 128) with false by lia.
      replace (128 + 55 + rlp.len size <? 184) with false by lia.
      replace (128 + 55 + rlp.len size <? 192) with true by lia.
      replace (Z.to_nat (128 + 55 + rlp.len size - 183)) with (length size)
        by (unfold rlp.len; lia).
      cbn zeta. rewrite Hts, Hds, Hbe.
      replace (Z.to_nat (rlp.len content)) with (length content)
        by (unfold rlp.len; lia).
      by rewrite Htake, Hdrop.
    + replace (192 + 55 + rlp.len size <? 128) with false by lia.
      replace (192 + 55 + rlp.len size <? 184) with false by lia.
      replace (192 + 55 + rlp.len size <? 192) with false by lia.
      replace (192 + 55 + rlp.len size <? 248) with false by lia.
      replace (Z.to_nat (192 + 55 + rlp.len size - 247)) with (length size)
        by (unfold rlp.len; lia).
      cbn zeta. rewrite Hts, Hds, Hbe.
      replace (Z.to_nat (rlp.len content)) with (length content)
        by (unfold rlp.len; lia).
      by rewrite Htake, Hdrop.
Qed.

Lemma split_item_writeList (p r : list byte) :
  rlp.fits p -> rlp.split_item (rlp.writeList p ++ r) = Some (true, p, r).
Proof.
  intros Hfit. unfold rlp.writeList, rlp.encodeListHeader. rewrite <- app_assoc.
  rewrite <- (split_item_header 192 true p r) by auto.
  destruct (rlp.len p <? 56); reflexivity.
Qed.

Lemma split_item_writeBytes (s r : list byte) :
  rlp.fits s -> rlp.split_item (rlp.writeBytes s ++ r) = Some (false, s, r).
Proof.
  intros Hfit.
  assert (Hgen : rlp.split_item ((rlp.encodeStringHeader (rlp.len s) ++ s) ++ r)
                 = Some (false, s, r)).
  { unfold rlp.encodeStringHeader. rewrite <- app_assoc.
    rewrite <- (split_item_header 128 false s r) by auto.
    destruct (rlp.len s <? 56); reflexivity. }
  unfold rlp.writeBytes. destruct s as [|b [|b' s]]; try exact Hgen.
  destruct (Z.leb_spec (Z_of_byte b) 127) as [Hb|Hb]; [|exact Hgen].
  cbn [app rlp.split_item]. by replace (Z_of_byte b <? 128) with true by lia.
Qed.

Lemma fits_app (a b : list byte) : rlp.fits (a ++ b) -> rlp.fits a /\ rlp.fits b.
Proof. unfold rlp.fits, rlp.len. rewrite length_app. lia. Qed.

Lemma len_writeBytes_ge (s : list byte) : rlp.len s <= rlp.len (rlp.writeBytes s).
Proof.
  unfold rlp.writeBytes, rlp.len.
  destruct s as [|b [|b' s]]; try (rewrite length_app; lia).
  destruct (Z_of_byte b <=? 127); [lia|]. rewrite length_app. lia.
Qed.

Lemma len_writeList_ge (p : list byte) : rlp.len p <= rlp.len (rlp.writeList p).
Proof. unfold rlp.writeList, rlp.len. rewrite length_app. lia. Qed.

(** Two byte strings written one after the other are read back uniquely. *)
Lemma writeBytes_unique (s s' r r' : list byte) :
  rlp.fits (rlp.writeBytes s ++ r) ->
  rlp.writeBytes s ++ r = rlp.writeBytes s' ++ r' ->
  s = s' /\ r = r' /\ rlp.fits r.
Proof.
  intros Hfit Heq.
  assert (Hs : rlp.fits s).
  { apply fits_app in Hfit as [Hfit _]. pose proof (len_writeBytes_ge s).
    unfold rlp.fits in *. lia. }
  assert (Hs' : rlp.fits s').
  { rewrite Heq in Hfit. apply fits_app in Hfit as [Hfit _].
    pose proof (len_writeBytes_ge s'). unfold rlp.fits in *. lia. }
  pose proof (split_item_writeBytes s r Hs) as H1.
  rewrite Heq, (split_item_writeBytes s' r' Hs') in H1.
  injection H1 as <- <-. apply fits_app in Hfit as [_ Hr]. auto.
Qed.

Lemma writeList_unique (p p' r r' : list byte) :
  rlp.fits (rlp.writeList p ++ r) ->
  rlp.writeList p ++ r = rlp.writeList p' ++ r' ->
  p = p' /\ r = r' /\ rlp.fits p /\ rlp.fits r.
Proof.
  intros Hfit Heq.
  assert (Hp : rlp.fits p).
  { apply fits_app in Hfit as [Hfit _]. pose proof (len_writeList_ge p).
    unfold rlp.fits in *. lia. }
  assert (Hp' : rlp.fits p').
  { rewrite Heq in Hfit. apply fits_app in Hfit as [Hfit _].
    pose proof (len_writeList_ge p'). unfold rlp.fits in *. lia. }
  pose proof (split_item_writeList p r Hp) as H1.
  rewrite Heq, (split_item_writeList p' r' Hp') in H1.
  injection H1 as <- <-. apply fits_app in Hfit as [_ Hr]. auto.
Qed.

(** The minimal big-endian bytes [writeUint] writes as a string. *)
Lemma writeUint_as_bytes (i : Z) :
  0 <= i < 2 ^ 64 ->
  exists bs, rlp.writeUint i = rlp.writeBytes bs /\ be_to_Z bs = i.
Proof.
  intros Hi. unfold rlp.writeUint.
  destruct (Z.eqb_spec i 0) as [->|Hnz]; [by exists []|].
  destruct (Z.ltb_spec i 128) as [Hsmall|Hbig].
  - exists [byte_of_Z i]. split.
    + unfold rlp.writeBytes. rewrite Z_of_byte_of_Z_small by lia.
      by replace (i <=? 127) with true by lia.
    + unfold be_to_Z. cbn. rewrite Z_of_byte_of_Z_small by lia. lia.
  - exists (rlp.putint i). split; [|by apply be_to_Z_putint].
    destruct (putint_be_bytes i Hi) as (n & Hn & Hput & Hlt & Hge).
    pose proof (len_putint i Hi) as Hk.
    unfold rlp.writeBytes, rlp.encodeStringHeader.
    destruct (rlp.putint i) as [|b [|b' bs]] eqn:Hp.
    + unfold rlp.len in Hk. cbn in Hk. lia.
    + assert (Hb : Z_of_byte b = i).
      { pose proof (be_to_Z_putint i Hi) as Hbe. rewrite Hp in Hbe.
        unfold be_to_Z in Hbe. cbn in Hbe. lia. }
      rewrite Hb. replace (i <=? 127) with false by lia. reflexivity.
    + replace (rlp.len (b :: b' :: bs) <? 56) with true by lia. reflexivity.
Qed.

Lemma writeUint_unique (i i' : Z) (r r' : list byte) :
  0 <= i < 2 ^ 64 -> 0 <= i' < 2 ^ 64 ->
  rlp.fits (rlp.writeUint i ++ r) ->
  rlp.writeUint i ++ r = rlp.writeUint i' ++ r' ->
  i = i' /\ r = r' /\ rlp.fits r.
Proof.
  intros Hi Hi' Hfit Heq.
  destruct (writeUint_as_bytes i Hi) as (bs & Hw & Hbe).
  destruct (writeUint_as_bytes i' Hi') as (bs' & Hw' & Hbe').
  rewrite Hw in Hfit, Heq. rewrite Hw' in Heq.
  destruct (writeBytes_unique _ _ _ _ Hfit Heq) as (-> & -> & Hr).
  split; [congruence|auto].
Qed.

Lemma writeBool_unique (b b' : bool) (r r' : list byte) :
  rlp.fits (rlp.writeBool b ++ r) ->
  rlp.writeBool b ++ r = rlp.writeBool b' ++ r' ->
  b = b' /\ r = r' /\ rlp.fits r.
Proof.
  intros Hfit Heq. apply fits_app in Hfit as [_ Hr].
  destruct b, b'; cbn in Heq; try discriminate; injection Heq as ->; auto.
Qed.

Lemma writeString_unique (s s' : string) (r r' : list byte) :
  rlp.fits (rlp.writeString s ++ r) ->
  rlp.writeString s ++ r = rlp.writeString s' ++ r' ->
  s = s' /\ r = r' /\ rlp.fits r.
Proof.
  intros Hfit Heq. unfold rlp.writeString in *.
  destruct (writeBytes_unique _ _ _ _ Hfit Heq) as (Hs & -> & Hr).
  split; [|auto].
  rewrite <- (string_of_list_byte_of_string s), <- (string_of_list_byte_of_string s').
  by rewrite Hs.
Qed.

Lemma writeHash_unique (h h' : vec byte 32) (r r' : list byte) :
  rlp.fits (rlp.writeBytes (vec_to_list h) ++ r) ->
  rlp.writeBytes (vec_to_list h) ++ r = rlp.writeBytes (vec_to_list h') ++ r' ->
  h = h' /\ r = r' /\ rlp.fits r.
Proof.
  intros Hfit Heq.
  destruct (writeBytes_unique _ _ _ _ Hfit Heq) as (Hs & -> & Hr).
  split; [by apply vec_to_list_inj2|auto].
Qed.

Lemma unsigned_range64 (w : uint64) : 0 <= word.unsigned w < 2 ^ 64.
Proof. apply word.unsigned_range. Qed.

Lemma unsigned_range32 (w : uint32) : 0 <= word.unsigned w < 2 ^ 64.
Proof. pose proof (word.unsigned_range w). lia. Qed.

Lemma unsigned_range8 (w : uint8) : 0 <= word.unsigned w < 2 ^ 64.
Proof. pose proof (word.unsigned_range w). lia. Qed.

Lemma writeBytes_nonempty (s : list byte) (r : list byte) : rlp.writeBytes s ++ r <> [].
Proof.
  unfold rlp.writeBytes, rlp.encodeStringHeader.
  destruct s as [|b [|b' s]]; repeat case_match; discriminate.
Qed.

Lemma writeUint_nonempty (i : Z) (r : list byte) : rlp.writeUint i ++ r <> [].
Proof. unfold rlp.writeUint. repeat case_match; discriminate. Qed.

Lemma nilList_as_list : rlp.nilList = rlp.writeList [].
Proof. reflexivity. Qed.

(** A pointer field: nil is the empty list, a struct is a list whose
    payload is not empty. *)
Lemma pointer_unique {A : Type} (payload : A -> list byte) (o o' : option A)
    (r r' : list byte) :
  (forall x, payload x <> []) ->
  (forall x x', rlp.fits (payload x) -> payload x = payload x' -> x = x') ->
  rlp.fits (match o with None => rlp.nilList | Some x => rlp.writeList (payload x) end ++ r) ->
  match o with None => rlp.nilList | Some x => rlp.writeList (payload x) end ++ r
  = match o' with None => rlp.nilList | Some x => rlp.writeList (payload x) end ++ r' ->
  o = o' /\ r = r' /\ rlp.fits r.
Proof.
  intros Hne Hinj Hfit Heq. rewrite nilList_as_list in *.
  destruct o as [x|], o' as [x'|];
    destruct (writeList_unique _ _ _ _ Hfit Heq) as (Hp & -> & Hfp & Hr).
  - split; [|auto]. f_equal. by apply Hinj.
  - by apply Hne in Hp.
  - symmetry in Hp. by apply Hne in Hp.
  - auto.
Qed.

(** A slice of structs: the concatenation of their encodings. *)
Lemma concat_unique {A : Type} (payload : A -> list byte) (l l' : list A) :
  (forall x x', rlp.fits (payload x) -> payload x = payload x' -> x = x') ->
  rlp.fits (concat ((fun x => rlp.writeList (payload x)) <$> l)) ->
  concat ((fun x => rlp.writeList (payload x)) <$> l)
  = concat ((fun x => rlp.writeList (payload x)) <$> l') ->
  l = l'.
Proof.
  intros Hinj. revert l'. induction l as [|x l IH]; intros [|x' l'] Hfit Heq.
  - reflexivity.
  - cbn in Heq. symmetry in Heq. apply app_eq_nil in Heq as [Heq _].
    unfold rlp.writeList, rlp.encodeListHeader in Heq. repeat case_match; discriminate.
  - cbn in Heq. apply app_eq_nil in Heq as [Heq _].
    unfold rlp.writeList, rlp.encodeListHeader in Heq. repeat case_match; discriminate.
  - cbn [fmap list_fmap concat] in Hfit, Heq.
    destruct (writeList_unique _ _ _ _ Hfit Heq) as (Hp & Hrest & Hfp & Hr).
    f_equal; [by apply Hinj|by apply IH].
Qed.

(** Reads one field off both sides of an equation between two field
    sequences, keeping the bound on what is left. *)
Ltac peel lem :=
  match goal with
  | Hfit : rlp.fits (_ ++ _), Heq : _ ++ _ = _ ++ _ |- _ =>
      let H := fresh "Hfield" in
      let Hfit' := fresh "Hfit" in
      let Heq' := fresh "Heq" in
      destruct (lem _ _ _ _ Hfit Heq) as (H & Heq' & Hfit');
      clear Hfit Heq
  end.

Ltac peel_uint r1 r2 :=
  match goal with
  | Hfit : rlp.fits (rlp.writeUint ?i ++ _),
    Heq : rlp.writeUint ?i ++ _ = rlp.writeUint ?i' ++ _ |- _ =>
      let H := fresh "Hfield" in
      let Hfit' := fresh "Hfit" in
      let Heq' := fresh "Heq" in
      destruct (writeUint_unique i i' _ _ r1 r2 Hfit Heq) as (H & Heq' & Hfit');
      clear Hfit Heq
  end.

(** Makes the last field of both sequences look like the others. *)
Ltac close_sequences :=
  match goal with
  | Hfit : rlp.fits ?a, Heq : ?a = ?b |- _ =>
      rewrite <- (app_nil_r a) in Hfit;
      rewrite <- (app_nil_r a), <- (app_nil_r b) in Heq;
      repeat rewrite <- app_assoc in Hfit;
      repeat rewrite <- app_assoc in Heq
  end.

Lemma ChunkInfo_fields_inj (c c' : ChunkInfo.t) :
  rlp.fits (ChunkInfo.fields c) -> ChunkInfo.fields c = ChunkInfo.fields c' -> c = c'.
Proof.
  unfold ChunkInfo.fields. intros Hfit Heq. close_sequences.
  peel_uint (unsigned_range64 (ChunkInfo.ChainID c)) (unsigned_range64 (ChunkInfo.ChainID c')).
  peel writeHash_unique. peel writeHash_unique. peel writeHash_unique.
  peel writeHash_unique. peel writeBool_unique. peel writeBytes_unique.
  destruct c, c'; cbn in *; subst. f_equal. by apply word.unsigned_inj.
Qed.

Lemma ChunkInfo_fields_nonempty (c : ChunkInfo.t) : ChunkInfo.fields c <> [].
Proof. apply writeUint_nonempty. Qed.

Lemma SubCircuitRowUsage_fields_inj (u u' : SubCircuitRowUsage.t) :
  rlp.fits (SubCircuitRowUsage.fields u) ->
  SubCircuitRowUsage.fields u = SubCircuitRowUsage.fields u' -> u = u'.
Proof.
  unfold SubCircuitRowUsage.fields. intros Hfit Heq. close_sequences.
  peel writeString_unique.
  peel_uint (unsigned_range64 (SubCircuitRowUsage.RowNumber u))
            (unsigned_range64 (SubCircuitRowUsage.RowNumber u')).
  destruct u, u'; cbn in *; subst. f_equal. by apply word.unsigned_inj.
Qed.

Lemma ChunkInfo_pointer_unique (o o' : option ChunkInfo.t) (r r' : list byte) :
  rlp.fits (match o with None => rlp.nilList | Some c => ChunkInfo.EncodeRLP c end ++ r) ->
  match o with None => rlp.nilList | Some c => ChunkInfo.EncodeRLP c end ++ r
  = match o' with None => rlp.nilList | Some c => ChunkInfo.EncodeRLP c end ++ r' ->
  o = o' /\ r = r' /\ rlp.fits r.
Proof.
  apply (pointer_unique ChunkInfo.fields);
    [apply ChunkInfo_fields_nonempty|apply ChunkInfo_fields_inj].
Qed.

Lemma RowUsages_unique (l l' : list SubCircuitRowUsage.t) (r r' : list byte) :
  rlp.fits (rlp.writeList (concat (SubCircuitRowUsage.EncodeRLP <$> l)) ++ r) ->
  rlp.writeList (concat (SubCircuitRowUsage.EncodeRLP <$> l)) ++ r
  = rlp.writeList (concat (SubCircuitRowUsage.EncodeRLP <$> l')) ++ r' ->
  l = l' /\ r = r' /\ rlp.fits r.
Proof.
  intros Hfit Heq.
  destruct (writeList_unique _ _ _ _ Hfit Heq) as (Hp & -> & Hfp & Hr).
  split; [|auto].
  by apply (concat_unique SubCircuitRowUsage.fields _ _ SubCircuitRowUsage_fields_inj).
Qed.

Lemma ChunkProof_fields_inj (p p' : ChunkProof.t) :
  rlp.fits (ChunkProof.fields p) -> ChunkProof.fields p = ChunkProof.fields p' -> p = p'.
Proof.
  unfold ChunkProof.fields. intros Hfit Heq. close_sequences.
  do 5 peel writeBytes_unique. peel ChunkInfo_pointer_unique.
  peel writeString_unique. peel RowUsages_unique.
  destruct p, p'; cbn in *; by subst.
Qed.

Lemma ChunkProof_fields_nonempty (p : ChunkProof.t) : ChunkProof.fields p <> [].
Proof. apply writeBytes_nonempty. Qed.

Lemma BatchProof_fields_inj (p p' : BatchProof.t) :
  rlp.fits (BatchProof.fields p) -> BatchProof.fields p = BatchProof.fields p' -> p = p'.
Proof.
  unfold BatchProof.fields. intros Hfit Heq. close_sequences.
  do 3 peel writeBytes_unique. peel writeString_unique.
  destruct p, p'; cbn in *; by subst.
Qed.

Lemma BatchProof_fields_nonempty (p : BatchProof.t) : BatchProof.fields p <> [].
Proof. apply writeBytes_nonempty. Qed.

Lemma ChunkProof_pointer_unique (o o' : option ChunkProof.t) (r r' : list byte) :
  rlp.fits (match o with None => rlp.nilList | Some c => ChunkProof.EncodeRLP c end ++ r) ->
  match o with None => rlp.nilList | Some c => ChunkProof.EncodeRLP c end ++ r
  = match o' with None => rlp.nilList | Some c => ChunkProof.EncodeRLP c end ++ r' ->
  o = o' /\ r = r' /\ rlp.fits r.
Proof.
  apply (pointer_unique ChunkProof.fields);
    [apply ChunkProof_fields_nonempty|apply ChunkProof_fields_inj].
Qed.

Lemma BatchProof_pointer_unique (o o' : option BatchProof.t) (r r' : list byte) :
  rlp.fits (match o with None => rlp.nilList | Some c => BatchProof.EncodeRLP c end ++ r) ->
  match o with None => rlp.nilList | Some c => BatchProof.EncodeRLP c end ++ r
  = match o' with None => rlp.nilList | Some c => BatchProof.EncodeRLP c end ++ r' ->
  o = o' /\ r = r' /\ rlp.fits r.
Proof.
  apply (pointer_unique BatchProof.fields);
    [apply BatchProof_fields_nonempty|apply BatchProof_fields_inj].
Qed.

Lemma ProofDetail_fields_inj (z z' : ProofDetail.t) :
  rlp.fits (ProofDetail.fields z) -> ProofDetail.fields z = ProofDetail.fields z' -> z = z'.
Proof.
  unfold ProofDetail.fields. intros Hfit Heq. close_sequences.
  peel writeString_unique.
  peel_uint (unsigned_range8 (ProofDetail.Type_ z)) (unsigned_range8 (ProofDetail.Type_ z')).
  peel_uint (unsigned_range32 (ProofDetail.Status z)) (unsigned_range32 (ProofDetail.Status z')).
  peel ChunkProof_pointer_unique. peel BatchProof_pointer_unique.
  peel writeString_unique.
  destruct z, z'; cbn in *; subst. f_equal; by apply word.unsigned_inj.
Qed.

(** The serialization of a [ProofDetail] determines every one of its
    fields, nested ones included. *)
Lemma EncodeRLP_inj (z z' : ProofDetail.t) :
  rlp.fits (ProofDetail.EncodeRLP z) ->
  ProofDetail.EncodeRLP z = ProofDetail.EncodeRLP z' -> z = z'.
Proof.
  unfold ProofDetail.EncodeRLP. intros Hfit Heq. close_sequences.
  destruct (writeList_unique _ _ _ _ Hfit Heq) as (Hp & _ & Hfp & _).
  by apply ProofDetail_fields_inj.
Qed.


(** ** Digests are short: two details share one *)

#[local] Instance byte_eq_dec : EqDecision byte.
Proof.
  intros x y. destruct (Byte.eqb x y) eqn:Hxy.
  - left. by apply Byte.byte_dec_bl.
  - right. intros ->. by rewrite (Byte.byte_dec_lb eq_refl) in Hxy.
Defined.


Lemma byte_of_to_nat (b : byte) : byte_of_nat (byte_to_nat b) = b.
Proof. by destruct b. Qed.

Lemma byte_to_nat_bound (b : byte) : (byte_to_nat b < 256)%nat.
Proof. unfold byte_to_nat. pose proof (Byte.to_N_bounded b). lia. Qed.

Lemma byte_to_of_nat (i : nat) : (i < 256)%nat -> byte_to_nat (byte_of_nat i) = i.
Proof.
  intros Hi. unfold byte_to_nat, byte_of_nat.
  pose proof (Z_of_byte_of_Z_small (Z.of_nat i) ltac:(lia)) as H.
  unfold Z_of_byte in H. lia.
Qed.

#[local] Instance byte_finite : Finite byte :=
  enc_finite byte_to_nat byte_of_nat 256 byte_of_to_nat byte_to_nat_bound byte_to_of_nat.







(** Keccak-256 of the empty string and of "abc", as published. *)
Lemma Keccak256_test_vectors :
  common.Bytes2Hex (keccak.Keccak256 [])
  = "c5d2460186f7233c927e7db2dcc703c0e500b653ca82273b7bfad8045d85a470"%string /\
  common.Bytes2Hex (keccak.Keccak256 [x61; x62; x63])
  = "4e03657aea45a94fc7d47ba826c8d667c0d1e6e33a64a036ec44f58fa12d6c45"%string.
Proof. split; vm_compute; reflexivity. Qed.

(** The encoder on the examples of the RLP specification: the string
    "dog", the empty string, the integers 0, 15 and 1024, the empty list,
    and a string of 56 bytes, the shortest with a long header. *)
Lemma rlp_test_vectors :
  common.Bytes2Hex (rlp.writeString "dog") = "83646f67"%string /\
  common.Bytes2Hex (rlp.writeString "") = "80"%string /\
  common.Bytes2Hex (rlp.writeUint 0) = "80"%string /\
  common.Bytes2Hex (rlp.writeUint 15) = "0f"%string /\
  common.Bytes2Hex (rlp.writeUint 1024) = "820400"%string /\
  common.Bytes2Hex (rlp.writeList []) = "c0"%string /\
  common.Bytes2Hex (rlp.writeList (rlp.writeString "cat" ++ rlp.writeString "dog"))
  = "c88363617483646f67"%string /\
  common.Bytes2Hex (firstn 4 (rlp.writeBytes (repeat x61 56))) = "b8386161"%string /\
  common.Bytes2Hex (rlp.writeBytes (repeat x61 1024)) 
  = String.append "b90400" (common.Bytes2Hex (repeat x61 1024)).
Proof. repeat split; vm_compute; reflexivity. Qed.

(** The serialization of the example detail, byte for byte. *)
Lemma EncodeRLP_example :
  common.Bytes2Hex
    (ProofDetail.EncodeRLP
       {| ProofDetail.ID := "task-1"; ProofDetail.Type_ := ProofTypeChunk;
          ProofDetail.Status := StatusProofError; ProofDetail.ChunkProof := None;
          ProofDetail.BatchProof := None; ProofDetail.Error := "oom" |})
  = "cf867461736b2d310101c0c0836f6f6d"%string.
Proof. vm_compute. reflexivity. Qed.

End MessageProofs.

(** * Further properties of the proof-message protocol *)
Module MessageFurther.
Import message MessageProofs.

(** ** Proof types and tokens *)






Lemma hexdigit_in_table (n : Z) : hex.hexdigit n ∈ hex.hextable.
Proof.
  unfold hex.hexdigit. apply list_elem_of_In.
  destruct (nth_in_or_default (Z.to_nat n) hex.hextable "0"%char) as [Hin| ->];
    [exact Hin|]. cbn. auto.
Qed.

Lemma EncodeToString_lowercase (bs : list byte) :
  Forall (fun c => c ∈ hex.hextable) (list_ascii_of_string (hex.EncodeToString bs)).
Proof.
  induction bs as [|v bs IH]; [constructor|].
  cbn [hex.EncodeToString list_ascii_of_string].
  constructor; [apply hexdigit_in_table|].
  constructor; [apply hexdigit_in_table|exact IH].
Qed.

Lemma EncodeToString_inj (a b : list byte) :
  hex.EncodeToString a = hex.EncodeToString b -> a = b.
Proof.
  intros H. apply (f_equal hex.DecodeString) in H.
  rewrite !DecodeString_EncodeToString in H. congruence.
Qed.

(** X10: a token is the 16 bytes the entropy source delivered, written as 32
    characters out of [0-9a-f]; decoding it gives the bytes back, so two
    tokens are equal only if the sources delivered the same bytes.  When the
    source fails, its error is returned with an empty token. *)
Theorem GenerateToken_encodes_the_entropy (rand_Read : nat -> error + list byte)
    (b : list byte) :
  rand_Read 16%nat = inr b ->
  length b = 16%nat ->
  (exists token,
     GenerateToken rand_Read = (token, None) /\
     String.length token = 32%nat /\
     Forall (fun c => c ∈ hex.hextable) (list_ascii_of_string token) /\
     hex.DecodeString token = (b, None)) /\
  (forall rand_Read' token,
     GenerateToken rand_Read = (token, None) ->
     GenerateToken rand_Read' = (token, None) ->
     rand_Read' 16%nat = inr b) /\
  (forall rand_Read' err,
     rand_Read' 16%nat = inl err -> GenerateToken rand_Read' = (EmptyString, Some err)).
Proof.
  intros Hread Hlen. unfold GenerateToken. rewrite Hread. split; [|split].
  - exists (hex.EncodeToString b). split; [reflexivity|].
    rewrite length_EncodeToString, Hlen.
    split; [reflexivity|]. split; [apply EncodeToString_lowercase|].
    apply DecodeString_EncodeToString.
  - intros rand_Read' token [= <-]. destruct (rand_Read' 16%nat) as [err|b']; [discriminate|].
    intros [= H]. apply EncodeToString_inj in H. by subst.
  - intros rand_Read' err ->. reflexivity.
Qed.

(** The theorem on the source that always answers [a7]. *)
Lemma GenerateToken_encodes_the_entropy_witness :
  (exists token,
     GenerateToken Scenarios.constant_source = (token, None) /\
     String.length token = 32%nat /\
     Forall (fun c => c ∈ hex.hextable) (list_ascii_of_string token) /\
     hex.DecodeString token = (repeat xa7 16, None)) /\
  (forall rand_Read' token,
     GenerateToken Scenarios.constant_source = (token, None) ->
     GenerateToken rand_Read' = (token, None) ->
     rand_Read' 16%nat = inr (repeat xa7 16)) /\
  (forall rand_Read' err,
     rand_Read' 16%nat = inl err -> GenerateToken rand_Read' = (EmptyString, Some err)).
Proof.
  apply (GenerateToken_encodes_the_entropy Scenarios.constant_source (repeat xa7 16));
    reflexivity.
Defined.

Lemma GenerateToken_example :
  GenerateToken Scenarios.constant_source
  = ("a7a7a7a7a7a7a7a7a7a7a7a7a7a7a7a7"%string, None).
Proof. reflexivity. Qed.

(** ** The two paths of [PublicKey] *)

Ltac fields :=
  cbn [ProofMsg.zkProof ProofMsg.Signature ProofMsg.publicKey
       ProofMsg.with_signature ProofMsg.with_publicKey].

Lemma PublicKey_fresh (S : SigScheme) (a : ProofMsg.t) :
  ProofMsg.publicKey a = EmptyString ->
  ProofMsg.PublicKey S a =
    match crypto_SigToPub S (fst (ProofDetail.Hash (ProofMsg.zkProof a)))
            (common.FromHex (ProofMsg.Signature a)) with
    | inl err => (a, (EmptyString, Some err))
    | inr pk =>
        (ProofMsg.with_publicKey a (common.Bytes2Hex (crypto_CompressPubkey S pk)),
         (common.Bytes2Hex (crypto_CompressPubkey S pk), None))
    end.
Proof.
  intros Hpk. unfold ProofMsg.PublicKey.
  rewrite Hash_succeeds, (eqb_empty_true _ Hpk). reflexivity.
Qed.

Lemma PublicKey_cached (S : SigScheme) (a : ProofMsg.t) :
  ProofMsg.publicKey a <> EmptyString ->
  ProofMsg.PublicKey S a = (a, (ProofMsg.publicKey a, None)).
Proof.
  intros Hpk. unfold ProofMsg.PublicKey. rewrite (eqb_empty_false _ Hpk). reflexivity.
Qed.

Lemma empty_or_not (s : string) : s = EmptyString \/ s <> EmptyString.
Proof. destruct s; [by left|by right]. Qed.

(** ** Signing *)

(** X11: [Sign] writes the signature and nothing else.  On success the
    signature is the 65 bytes of the library's signature as [0x] followed by
    130 characters out of [0-9a-f], which [FromHex] reads back; the detail
    and the cached key are as before.  On failure the message is
    unchanged and the error is the library's. *)
Theorem Sign_writes_only_the_signature (S : SigScheme) (L : SigLaws S)
    (a : ProofMsg.t) (k : PrivateKey S) :
  match ProofMsg.Sign S a k with
  | (a', None) =>
      exists sig,
        crypto_Sign S (fst (ProofDetail.Hash (ProofMsg.zkProof a))) k = inr sig /\
        length sig = 65%nat /\
        a' = ProofMsg.with_signature a (hexutil.Encode sig) /\
        String.length (ProofMsg.Signature a') = 132%nat /\
        common.has0xPrefix (ProofMsg.Signature a') = true /\
        Forall (fun c => c ∈ hex.hextable)
          (list_ascii_of_string (String.substring 2 130 (ProofMsg.Signature a'))) /\
        common.FromHex (ProofMsg.Signature a') = sig
  | (a', Some err) =>
      a' = a /\
      crypto_Sign S (fst (ProofDetail.Hash (ProofMsg.zkProof a))) k = inl err
  end.
Proof.
  unfold ProofMsg.Sign. rewrite Hash_succeeds. cbn [fst].
  destruct (crypto_Sign S _ k) as [err|sig] eqn:Hsig; [split; reflexivity|].
  pose proof (sign_length S L _ _ _ Hsig) as Hlen.
  exists sig. fields. split; [reflexivity|]. split; [exact Hlen|]. split; [reflexivity|].
  assert (Hhex : String.length (hex.EncodeToString sig) = 130%nat)
    by (rewrite length_EncodeToString, Hlen; reflexivity).
  split; [unfold hexutil.Encode; cbn [String.length]; by rewrite Hhex|].
  split; [reflexivity|].
  split; [|apply FromHex_Encode].
  unfold hexutil.Encode. cbn [String.substring]. rewrite <- Hhex, substring_all.
  apply EncodeToString_lowercase.
Qed.

(** The theorem in the toy scheme, on the unsigned example message. *)
Lemma Sign_writes_only_the_signature_witness :
  exists sig,
    crypto_Sign Toy.scheme
      (fst (ProofDetail.Hash (ProofMsg.zkProof Examples.unsigned_msg))) Examples.key
    = inr sig /\
    length sig = 65%nat /\
    Examples.signed_msg = ProofMsg.with_signature Examples.unsigned_msg (hexutil.Encode sig) /\
    String.length (ProofMsg.Signature Examples.signed_msg) = 132%nat /\
    common.has0xPrefix (ProofMsg.Signature Examples.signed_msg) = true /\
    Forall (fun c => c ∈ hex.hextable)
      (list_ascii_of_string
         (String.substring 2 130 (ProofMsg.Signature Examples.signed_msg))) /\
    common.FromHex (ProofMsg.Signature Examples.signed_msg) = sig.
Proof.
  exact (Sign_writes_only_the_signature Toy.scheme toy_laws Examples.unsigned_msg
           Examples.key).
Defined.

(** ** Verifying again *)

(** X12: [Verify] changes nothing but the key cache, and writes the cache only
    when it was empty and the call ended without an error.  Verifying the
    message it leaves behind gives the same answer and changes nothing
    more: the cached key replaces the recovery without changing the
    verdict. *)
Theorem Verify_is_idempotent (S : SigScheme) (a a' : ProofMsg.t)
    (r : bool * option error) :
  ProofMsg.Verify S a = Returns (a', r) ->
  ProofMsg.zkProof a' = ProofMsg.zkProof a /\
  ProofMsg.Signature a' = ProofMsg.Signature a /\
  (ProofMsg.publicKey a <> EmptyString \/ snd r <> None -> a' = a) /\
  ProofMsg.Verify S a' = Returns (a', r).
Proof.
  intros Hrun. destruct (empty_or_not (ProofMsg.publicKey a)) as [Hpk|Hpk].
  - pose proof Hrun as Hfresh. rewrite (Verify_fresh S a Hpk) in Hfresh. cbn zeta in Hfresh.
    destruct (crypto_SigToPub S _ _) as [err|pk] eqn:Hrec.
    { injection Hfresh as <- <-. do 2 (split; [reflexivity|]).
      split; [reflexivity|exact Hrun]. }
    destruct (ProofMsg.drop_last_byte _) as [rs|v] eqn:Hdrop; [|discriminate].
    injection Hfresh as <- <-. fields. do 2 (split; [reflexivity|]).
    split; [intros [Hne|Herr]; [contradiction|by destruct Herr]|].
    destruct (empty_or_not (common.Bytes2Hex (crypto_CompressPubkey S pk))) as [He|Hne].
    + rewrite Verify_fresh by exact He. fields. cbn zeta. rewrite Hrec, Hdrop.
      reflexivity.
    + rewrite Verify_cached by exact Hne. fields. cbn zeta.
      rewrite Hdrop, FromHex_Bytes2Hex. reflexivity.
  - pose proof Hrun as Hcached. rewrite (Verify_cached S a Hpk) in Hcached.
    cbn zeta in Hcached.
    destruct (ProofMsg.drop_last_byte _) as [rs|v] eqn:Hdrop; [|discriminate].
    injection Hcached as <- <-. do 2 (split; [reflexivity|]).
    split; [reflexivity|exact Hrun].
Qed.

(** The theorem in the toy scheme: the signed message verifies, and so does
    the message the first verification left behind. *)
Lemma Verify_is_idempotent_witness :
  ProofMsg.Verify Toy.scheme Examples.signed_msg
  = Returns (Examples.verified_msg, (true, None)) /\
  ProofMsg.zkProof Examples.verified_msg = ProofMsg.zkProof Examples.signed_msg /\
  ProofMsg.Signature Examples.verified_msg = ProofMsg.Signature Examples.signed_msg /\
  (ProofMsg.publicKey Examples.signed_msg <> EmptyString \/ snd (true, @None error) <> None ->
   Examples.verified_msg = Examples.signed_msg) /\
  ProofMsg.Verify Toy.scheme Examples.verified_msg
  = Returns (Examples.verified_msg, (true, None)).
Proof.
  assert (H : ProofMsg.Verify Toy.scheme Examples.signed_msg
              = Returns (Examples.verified_msg, (true, None)))
    by (vm_compute; reflexivity).
  split; [exact H|].
  exact (Verify_is_idempotent Toy.scheme Examples.signed_msg Examples.verified_msg
           (true, None) H).
Defined.

(** ** [PublicKey] and [Verify] agree *)

(** X13: [PublicKey] and [Verify] cache the same key: after a [Verify] that
    ended without an error, [PublicKey] returns the key [Verify] left in
    the cache, asked on the message before or after it.  [PublicKey] fails
    exactly when [Verify] reports an error, with the same error, and
    asking twice gives the same answer. *)
Theorem PublicKey_agrees_with_Verify (S : SigScheme) (a : ProofMsg.t) :
  (forall a' b,
     ProofMsg.Verify S a = Returns (a', (b, None)) ->
     ProofMsg.PublicKey S a = (a', (ProofMsg.publicKey a', None)) /\
     ProofMsg.PublicKey S a' = (a', (ProofMsg.publicKey a', None))) /\
  (forall err,
     ProofMsg.Verify S a = Returns (a, (false, Some err)) <->
     ProofMsg.PublicKey S a = (a, (EmptyString, Some err))) /\
  ProofMsg.PublicKey S (fst (ProofMsg.PublicKey S a)) = ProofMsg.PublicKey S a.
Proof.
  destruct (empty_or_not (ProofMsg.publicKey a)) as [Hpk|Hpk].
  - rewrite (Verify_fresh S a Hpk), (PublicKey_fresh S a Hpk). cbn zeta.
    destruct (crypto_SigToPub S _ _) as [err|pk] eqn:Hrec.
    { split; [discriminate|]. split.
      - intros e. split; intros [= <-]; reflexivity.
      - cbn [fst]. rewrite (PublicKey_fresh S a Hpk), Hrec. reflexivity. }
    assert (Hagain :
      ProofMsg.PublicKey S
        (ProofMsg.with_publicKey a (common.Bytes2Hex (crypto_CompressPubkey S pk)))
      = (ProofMsg.with_publicKey a (common.Bytes2Hex (crypto_CompressPubkey S pk)),
         (common.Bytes2Hex (crypto_CompressPubkey S pk), None))).
    { destruct (empty_or_not (common.Bytes2Hex (crypto_CompressPubkey S pk))) as [He|Hne].
      - rewrite PublicKey_fresh by exact He. fields. rewrite Hrec. reflexivity.
      - rewrite PublicKey_cached by exact Hne. reflexivity. }
    split; [|split].
    + intros a' b Hrun.
      destruct (ProofMsg.drop_last_byte _) as [rs|v]; [|discriminate].
      injection Hrun as <- _. fields. split; [reflexivity|exact Hagain].
    + intros e. split; [|discriminate].
      destruct (ProofMsg.drop_last_byte _); discriminate.
    + cbn [fst]. exact Hagain.
  - rewrite (Verify_cached S a Hpk), (PublicKey_cached S a Hpk). cbn zeta.
    split; [|split].
    + intros a' b Hrun.
      destruct (ProofMsg.drop_last_byte _) as [rs|v]; [|discriminate].
      injection Hrun as <- _. split; [reflexivity|].
      apply PublicKey_cached, Hpk.
    + intros e. split; [|discriminate].
      destruct (ProofMsg.drop_last_byte _); discriminate.
    + cbn [fst]. apply PublicKey_cached, Hpk.
Qed.

(** ** Signing a message that holds a cached key *)

(** X14: [Sign] does not clear the key cache.  On a message that already holds
    a cached key, signing with any key leaves that key in place:
    [PublicKey] keeps returning it, and [Verify] checks the new signature
    against it without recovering the signer. *)
Theorem Sign_keeps_the_cached_key (S : SigScheme) (L : SigLaws S)
    (a a' : ProofMsg.t) (k : PrivateKey S) :
  ProofMsg.publicKey a <> EmptyString ->
  ProofMsg.Sign S a k = (a', None) ->
  ProofMsg.PublicKey S a' = (a', (ProofMsg.publicKey a, None)) /\
  (ProofMsg.publicKey a <> ProofMsg.signer_id S k ->
   fst (snd (ProofMsg.PublicKey S a')) <> ProofMsg.signer_id S k) /\
  ProofMsg.Verify S a'
  = Returns (a', (crypto_VerifySignature S (common.FromHex (ProofMsg.publicKey a))
                    (fst (ProofDetail.Hash (ProofMsg.zkProof a)))
                    (firstn 64 (common.FromHex (ProofMsg.Signature a'))), None)) /\
  (ProofMsg.publicKey a = ProofMsg.signer_id S k ->
   ProofMsg.Verify S a' = Returns (a', (true, None))).
Proof.
  intros Hpk Hsign. destruct (Sign_inv S a a' k Hsign) as (sig & Hsig & ->).
  pose proof (sign_length S L _ _ _ Hsig) as Hlen.
  assert (Hkey : ProofMsg.PublicKey S (ProofMsg.with_signature a (hexutil.Encode sig))
                 = (ProofMsg.with_signature a (hexutil.Encode sig),
                    (ProofMsg.publicKey a, None)))
    by (rewrite PublicKey_cached by exact Hpk; reflexivity).
  split; [exact Hkey|]. split; [rewrite Hkey; intros Hne; exact Hne|].
  rewrite Verify_cached by exact Hpk. fields. cbn zeta.
  rewrite FromHex_Encode, (drop_last_byte_65 _ Hlen). split; [reflexivity|].
  intros Hown. rewrite Hown. unfold ProofMsg.signer_id. rewrite FromHex_Bytes2Hex.
  rewrite (recover_verify S L _ _ _ (sign_recover S L _ _ _ Hsig)
             (sign_low_s S L _ _ _ Hsig)).
  reflexivity.
Qed.

(** The theorem in the toy scheme, on the verified message signed again
    with a second key. *)
Lemma Sign_keeps_the_cached_key_witness :
  ProofMsg.publicKey Examples.verified_msg <> EmptyString /\
  ProofMsg.Sign Toy.scheme Examples.verified_msg Scenarios.other_key
  = (Scenarios.resigned_msg, None) /\
  ProofMsg.PublicKey Toy.scheme Scenarios.resigned_msg
  = (Scenarios.resigned_msg, (ProofMsg.publicKey Examples.verified_msg, None)) /\
  (ProofMsg.publicKey Examples.verified_msg
   <> ProofMsg.signer_id Toy.scheme Scenarios.other_key ->
   fst (snd (ProofMsg.PublicKey Toy.scheme Scenarios.resigned_msg))
   <> ProofMsg.signer_id Toy.scheme Scenarios.other_key) /\
  ProofMsg.Verify Toy.scheme Scenarios.resigned_msg
  = Returns (Scenarios.resigned_msg,
             (crypto_VerifySignature Toy.scheme
                (common.FromHex (ProofMsg.publicKey Examples.verified_msg))
                (fst (ProofDetail.Hash (ProofMsg.zkProof Examples.verified_msg)))
                (firstn 64 (common.FromHex (ProofMsg.Signature Scenarios.resigned_msg))),
              None)) /\
  (ProofMsg.publicKey Examples.verified_msg
   = ProofMsg.signer_id Toy.scheme Scenarios.other_key ->
   ProofMsg.Verify Toy.scheme Scenarios.resigned_msg
   = Returns (Scenarios.resigned_msg, (true, None))).
Proof.
  assert (Hpk : ProofMsg.publicKey Examples.verified_msg <> EmptyString)
    by (vm_compute; discriminate).
  assert (Hsign : ProofMsg.Sign Toy.scheme Examples.verified_msg Scenarios.other_key
                  = (Scenarios.resigned_msg, None))
    by (vm_compute; reflexivity).
  split; [exact Hpk|]. split; [exact Hsign|].
  exact (Sign_keeps_the_cached_key Toy.scheme toy_laws Examples.verified_msg
           Scenarios.resigned_msg Scenarios.other_key Hpk Hsign).
Defined.

(** In the toy scheme the message signed again is rejected, and the key
    reported for it is the first signer's, not the second's. *)
Lemma resigned_msg_is_rejected :
  ProofMsg.Verify Toy.scheme Scenarios.resigned_msg
  = Returns (Scenarios.resigned_msg, (false, None)) /\
  snd (ProofMsg.PublicKey Toy.scheme Scenarios.resigned_msg)
  = (ProofMsg.signer_id Toy.scheme Examples.key, None) /\
  ProofMsg.signer_id Toy.scheme Examples.key
  <> ProofMsg.signer_id Toy.scheme Scenarios.other_key.
Proof.
  split; [vm_compute; reflexivity|]. split; [vm_compute; reflexivity|].
  vm_compute. discriminate.
Qed.

(** ** A message without a detail *)

(** X15: the detail of a message is a pointer, and nothing in [Sign], [Verify]
    or [Hash] refuses a nil one: it is hashed as the empty list.  A message
    without a detail is signed and verified like any other, and every such
    message has the same digest. *)
Theorem Sign_then_Verify_without_detail (S : SigScheme) (L : SigLaws S)
    (sig0 : string) (k : PrivateKey S) (a' : ProofMsg.t) :
  ProofMsg.Sign S
    {| ProofMsg.zkProof := None; ProofMsg.Signature := sig0;
       ProofMsg.publicKey := EmptyString |} k = (a', None) ->
  ProofDetail.Hash None = (keccak.Keccak256 [xc0], None) /\
  ProofMsg.zkProof a' = None /\
  ProofMsg.Verify S a'
  = Returns (ProofMsg.with_publicKey a' (ProofMsg.signer_id S k), (true, None)).
Proof.
  intros Hsign. destruct (Sign_inv S _ a' k Hsign) as (sig & Hsig & ->).
  fields. cbn [ProofMsg.zkProof] in Hsig.
  pose proof (sign_length S L _ _ _ Hsig) as Hlen.
  pose proof (sign_recover S L _ _ _ Hsig) as Hrec.
  pose proof (recover_verify S L _ _ _ Hrec (sign_low_s S L _ _ _ Hsig)) as Hver.
  split; [reflexivity|]. split; [reflexivity|].
  rewrite Verify_fresh by reflexivity. fields. cbn zeta.
  rewrite FromHex_Encode, Hrec, (drop_last_byte_65 _ Hlen), Hver. reflexivity.
Qed.

(** The theorem in the toy scheme. *)
Lemma Sign_then_Verify_without_detail_witness :
  ProofMsg.Sign Toy.scheme Scenarios.bare_msg Examples.key
  = (Scenarios.signed_bare_msg, None) /\
  ProofDetail.Hash None = (keccak.Keccak256 [xc0], None) /\
  ProofMsg.zkProof Scenarios.signed_bare_msg = None /\
  ProofMsg.Verify Toy.scheme Scenarios.signed_bare_msg
  = Returns (ProofMsg.with_publicKey Scenarios.signed_bare_msg
               (ProofMsg.signer_id Toy.scheme Examples.key), (true, None)).
Proof.
  assert (H : ProofMsg.Sign Toy.scheme Scenarios.bare_msg Examples.key
              = (Scenarios.signed_bare_msg, None))
    by (vm_compute; reflexivity).
  split; [exact H|].
  exact (Sign_then_Verify_without_detail Toy.scheme toy_laws EmptyString Examples.key
           Scenarios.signed_bare_msg H).
Defined.

(** ** How the signature string is read *)

(** X16: [Verify] and [PublicKey] see the signature only through
    [common.FromHex]: two signature strings that decode to the same bytes
    get the same verdict, the same cached key and the same panic.  The
    string [Sign] writes is therefore one spelling among several. *)
Theorem Verify_reads_the_signature_through_FromHex (S : SigScheme) (a : ProofMsg.t)
    (sig' : string) :
  common.FromHex sig' = common.FromHex (ProofMsg.Signature a) ->
  match ProofMsg.Verify S a with
  | Returns (a1, r) =>
      ProofMsg.Verify S (ProofMsg.with_signature a sig')
      = Returns (ProofMsg.with_signature a1 sig', r)
  | Panics v => ProofMsg.Verify S (ProofMsg.with_signature a sig') = Panics v
  end /\
  snd (ProofMsg.PublicKey S (ProofMsg.with_signature a sig'))
  = snd (ProofMsg.PublicKey S a).
Proof.
  intros Hsame. destruct (empty_or_not (ProofMsg.publicKey a)) as [Hpk|Hpk].
  - rewrite (Verify_fresh S a Hpk), (PublicKey_fresh S a Hpk).
    rewrite (Verify_fresh S (ProofMsg.with_signature a sig') Hpk).
    rewrite (PublicKey_fresh S (ProofMsg.with_signature a sig') Hpk).
    fields. cbn zeta. rewrite Hsame.
    destruct (crypto_SigToPub S _ _) as [err|pk]; [split; reflexivity|].
    destruct (ProofMsg.drop_last_byte _); split; reflexivity.
  - rewrite (Verify_cached S a Hpk), (PublicKey_cached S a Hpk).
    rewrite (Verify_cached S (ProofMsg.with_signature a sig') Hpk).
    rewrite (PublicKey_cached S (ProofMsg.with_signature a sig') Hpk).
    fields. cbn zeta. rewrite Hsame.
    destruct (ProofMsg.drop_last_byte _); split; reflexivity.
Qed.

(** The spellings of a byte string that [FromHex] reads alike: with the
    [0x] prefix [Sign] writes, without a prefix, and with [0X]. *)
Lemma FromHex_spellings (bs : list byte) :
  common.FromHex (hexutil.Encode bs) = bs /\
  common.FromHex (hex.EncodeToString bs) = bs /\
  common.FromHex (String "0" (String "X" (hex.EncodeToString bs))) = bs.
Proof.
  split; [apply FromHex_Encode|]. split; [apply (FromHex_Bytes2Hex bs)|].
  unfold common.FromHex. cbn [common.has0xPrefix Ascii.eqb Bool.eqb andb orb].
  cbn [String.length]. cbn [Nat.sub String.substring].
  rewrite Nat.sub_0_r, substring_all, length_EncodeToString, odd_double.
  unfold common.Hex2Bytes. by rewrite DecodeString_EncodeToString.
Qed.

(** The theorem in the toy scheme: the signed message verifies with its
    signature written without the [0x] prefix. *)
Lemma Verify_reads_the_signature_through_FromHex_witness :
  common.FromHex (ProofMsg.Signature Scenarios.unprefixed_msg)
  = common.FromHex (ProofMsg.Signature Examples.signed_msg) /\
  ProofMsg.Verify Toy.scheme Scenarios.unprefixed_msg
  = Returns (ProofMsg.with_signature Examples.verified_msg
               (ProofMsg.Signature Scenarios.unprefixed_msg), (true, None)) /\
  snd (ProofMsg.PublicKey Toy.scheme Scenarios.unprefixed_msg)
  = snd (ProofMsg.PublicKey Toy.scheme Examples.signed_msg).
Proof.
  assert (H : common.FromHex (ProofMsg.Signature Scenarios.unprefixed_msg)
              = common.FromHex (ProofMsg.Signature Examples.signed_msg))
    by (vm_compute; reflexivity).
  split; [exact H|].
  exact (Verify_reads_the_signature_through_FromHex Toy.scheme Examples.signed_msg
           (ProofMsg.Signature Scenarios.unprefixed_msg) H).
Defined.

(** ** When [Verify] panics *)

(** X17: with the library's contract, the slice-bounds panic is the only one
    and it needs a cached key: [Verify] panics exactly when a key is cached
    and the signature string decodes to no byte.  On a message without a
    cached key it always returns, because a signature from which a key was
    recovered is 65 bytes long. *)
Theorem Verify_panics_only_with_a_cached_key (S : SigScheme) (L : SigLaws S)
    (a : ProofMsg.t) :
  ((exists v, ProofMsg.Verify S a = Panics v) <->
   ProofMsg.publicKey a <> EmptyString /\ common.FromHex (ProofMsg.Signature a) = []) /\
  (ProofMsg.publicKey a = EmptyString -> exists r, ProofMsg.Verify S a = Returns r) /\
  (forall v, ProofMsg.Verify S a = Panics v ->
             v = "runtime error: slice bounds out of range [:-1]"%string).
Proof.
  destruct (empty_or_not (ProofMsg.publicKey a)) as [Hpk|Hpk].
  - assert (Hreturns : exists r, ProofMsg.Verify S a = Returns r).
    { rewrite (Verify_fresh S a Hpk). cbn zeta.
      destruct (crypto_SigToPub S _ _) as [err|pk] eqn:Hrec; [by eexists|].
      rewrite (drop_last_byte_65 _ (recover_length S L _ _ _ Hrec)). by eexists. }
    destruct Hreturns as (r & Hr). rewrite Hr.
    split; [split; [intros (v & Hv); discriminate|intros (Hne & _); contradiction]|].
    split; [by eexists|discriminate].
  - rewrite (Verify_cached S a Hpk). cbn zeta. unfold ProofMsg.drop_last_byte.
    destruct (common.FromHex (ProofMsg.Signature a)) as [|b sig]; cbn [length Nat.eqb].
    + split; [split; [auto|by eexists]|]. split; [contradiction|]. by intros v [= <-].
    + split; [split; [intros (v & Hv); discriminate|intros (_ & Hnil); discriminate]|].
      split; [contradiction|discriminate].
Qed.

(** The theorem in the toy scheme, on a message with a cached key whose
    signature string is not hexadecimal. *)
Lemma Verify_panics_only_with_a_cached_key_witness :
  ((exists v, ProofMsg.Verify Toy.scheme (Examples.cached_msg "zz") = Panics v) <->
   ProofMsg.publicKey (Examples.cached_msg "zz") <> EmptyString /\
   common.FromHex (ProofMsg.Signature (Examples.cached_msg "zz")) = []) /\
  (ProofMsg.publicKey (Examples.cached_msg "zz") = EmptyString ->
   exists r, ProofMsg.Verify Toy.scheme (Examples.cached_msg "zz") = Returns r) /\
  (forall v, ProofMsg.Verify Toy.scheme (Examples.cached_msg "zz") = Panics v ->
             v = "runtime error: slice bounds out of range [:-1]"%string).
Proof.
  exact (Verify_panics_only_with_a_cached_key Toy.scheme toy_laws (Examples.cached_msg "zz")).
Defined.

(** ** Serialized details in a stream *)

Lemma ProofDetail_fields_nonempty (z : ProofDetail.t) : ProofDetail.fields z <> [].
Proof. unfold ProofDetail.fields, rlp.writeString. apply writeBytes_nonempty. Qed.

(** X18: the bytes [Hash] digests are self-delimiting: whatever follows them,
    the serialization of a detail (or of the nil pointer) can be split
    off in one way only, so no serialization is a proper prefix of
    another; reading the first item gives back the payload and what
    follows. *)
Theorem serialized_detail_is_self_delimiting (z z' : option ProofDetail.t)
    (r r' : list byte) :
  rlp.fits (fst (ProofDetail.EncodeToBytes z) ++ r) ->
  fst (ProofDetail.EncodeToBytes z) ++ r = fst (ProofDetail.EncodeToBytes z') ++ r' ->
  z = z' /\ r = r' /\
  rlp.split_item (fst (ProofDetail.EncodeToBytes z) ++ r)
  = Some (true, match z with None => [] | Some d => ProofDetail.fields d end, r).
Proof.
  intros Hfit Heq.
  assert (Hform : forall o : option ProofDetail.t,
            fst (ProofDetail.EncodeToBytes o)
            = match o with
              | None => rlp.nilList
              | Some x => rlp.writeList (ProofDetail.fields x)
              end) by (intros [x|]; reflexivity).
  rewrite !Hform in Heq. rewrite Hform in Hfit.
  destruct (pointer_unique ProofDetail.fields z z' r r' ProofDetail_fields_nonempty
              ProofDetail_fields_inj Hfit Heq) as (Hz & Hr & _).
  split; [exact Hz|]. split; [exact Hr|].
  rewrite Hform. destruct z as [d|].
  - apply split_item_writeList. apply fits_app in Hfit. destruct Hfit as (Hfit & _).
    unfold rlp.fits in *. pose proof (len_writeList_ge (ProofDetail.fields d)). lia.
  - rewrite nilList_as_list. apply split_item_writeList. vm_compute. reflexivity.
Qed.

(** The theorem on the example detail followed by one more byte. *)
Lemma serialized_detail_is_self_delimiting_witness :
  Some Examples.detail = Some Examples.detail /\ [x01] = [x01] /\
  rlp.split_item (fst (ProofDetail.EncodeToBytes (Some Examples.detail)) ++ [x01])
  = Some (true, ProofDetail.fields Examples.detail, [x01]).
Proof.
  apply (serialized_detail_is_self_delimiting (Some Examples.detail)
           (Some Examples.detail) [x01] [x01]).
  - vm_compute. reflexivity.
  - reflexivity.
Defined.

End MessageFurther.
